(** * Pivot calibration ("Algebraic Two Step"): a shallow embedding of
    [pivot_calibration.py] and its specification.

    The Python code works on IEEE doubles through numpy and math3d.  The
    embedding is over exact arithmetic: numbers are the canonical rationals
    [Qc], whose equality is Leibniz equality and whose operations compute.
    Rounding, [nan] and the [rcond] cut-off of [np.linalg.pinv] are outside
    the model. *)

From Stdlib Require Import List Arith ZArith QArith Qcanon Lia Lqa Sorted
  Permutation.
Import ListNotations.

Open Scope Qc_scope.

(** ** Numbers *)

(** The rational [a/b] as a canonical rational. *)
Definition qc (a : Z) (b : positive) : Qc := Q2Qc (a # b).

(** ** The geometry collaborator (math3d)

    math3d is a library the program imports; its source is not part of the
    repository.  What the program uses of it is modelled from the
    specification's description of the collaborator: a pose has a rotation
    that converts to a (3,3) array and a translation that converts to a
    (3,) array, and applying a pose to a point rotates, then translates. *)

(** A numpy array of shape (3,), also the payload of [m3d.Vector]. *)
Record vec3 : Set := V3 { vx : Qc; vy : Qc; vz : Qc }.

(** A numpy array of shape (3,3), given by its rows; the payload of
    [m3d.Orientation]. *)
Record mat3 : Set := M3 { row0 : vec3; row1 : vec3; row2 : vec3 }.

(** [m3d.Transform]: the pose [BFi = [Ri, ti]]. *)
Record Transform : Set := mkTransform { orient : mat3; pos : vec3 }.

Definition vzero : vec3 := V3 0 0 0.
Definition vadd (u v : vec3) : vec3 :=
  V3 (vx u + vx v) (vy u + vy v) (vz u + vz v).
Definition vsub (u v : vec3) : vec3 :=
  V3 (vx u - vx v) (vy u - vy v) (vz u - vz v).
Definition vopp (u : vec3) : vec3 := V3 (- vx u) (- vy u) (- vz u).
Definition vscale (c : Qc) (u : vec3) : vec3 :=
  V3 (c * vx u) (c * vy u) (c * vz u).
Definition vdot (u v : vec3) : Qc := vx u * vx v + vy u * vy v + vz u * vz v.
Definition vcross (u v : vec3) : vec3 :=
  V3 (vy u * vz v - vz u * vy v)
     (vz u * vx v - vx u * vz v)
     (vx u * vy v - vy u * vx v).

Definition mzero : mat3 := M3 vzero vzero vzero.
Definition mident : mat3 := M3 (V3 1 0 0) (V3 0 1 0) (V3 0 0 1).
Definition madd (m n : mat3) : mat3 :=
  M3 (vadd (row0 m) (row0 n)) (vadd (row1 m) (row1 n)) (vadd (row2 m) (row2 n)).
Definition msub (m n : mat3) : mat3 :=
  M3 (vsub (row0 m) (row0 n)) (vsub (row1 m) (row1 n)) (vsub (row2 m) (row2 n)).
Definition mscale (c : Qc) (m : mat3) : mat3 :=
  M3 (vscale c (row0 m)) (vscale c (row1 m)) (vscale c (row2 m)).
Definition mtrans (m : mat3) : mat3 :=
  M3 (V3 (vx (row0 m)) (vx (row1 m)) (vx (row2 m)))
     (V3 (vy (row0 m)) (vy (row1 m)) (vy (row2 m)))
     (V3 (vz (row0 m)) (vz (row1 m)) (vz (row2 m))).
(** Matrix times column vector. *)
Definition mv (m : mat3) (v : vec3) : vec3 :=
  V3 (vdot (row0 m) v) (vdot (row1 m) v) (vdot (row2 m) v).
(** Row vector times matrix. *)
Definition vm (v : vec3) (m : mat3) : vec3 := mv (mtrans m) v.
Definition mmul (m n : mat3) : mat3 :=
  M3 (vm (row0 m) n) (vm (row1 m) n) (vm (row2 m) n).
(** The outer product [u u^T]. *)
Definition outer (u v : vec3) : mat3 :=
  M3 (vscale (vx u) v) (vscale (vy u) v) (vscale (vz u) v).

(** Modelled from the spec: [bfi * v] for a Transform and a Vector applies
    the pose to the point: rotate, then translate. *)
Definition transform_apply (bf : Transform) (v : vec3) : vec3 :=
  vadd (mv (orient bf) v) (pos bf).

(** ** The array collaborator (numpy), on the shapes the program uses

    numpy is a library as well.  Its functions are modelled from their
    documented behaviour, which is what the specification asks of the
    linear-algebra provider: vertical stacking, and a Moore-Penrose
    pseudoinverse. *)

(** Failures the call can end in.  [ValueError] is what [np.vstack] raises
    on an empty sequence ("need at least one array to concatenate") and
    what [dot] raises on mismatched shapes; it is the failure that the
    specification names InsufficientDataError.  [MeanOfEmptySlice] stands
    for [np.average] of no points, which is [nan] in numpy and has no value
    in exact arithmetic. *)
Inductive exn : Set := ValueError | MeanOfEmptySlice.

(** The rows of a (3,3) array. *)
Definition rows (m : mat3) : list vec3 := [row0 m; row1 m; row2 m].

(** [v.reshape((3,1))]: a column, given by its three one-entry rows. *)
Definition reshape31 (v : vec3) : list Qc := [vx v; vy v; vz v].

(** Modelled from the spec: [np.vstack] stacks arrays of equal width
    vertically, and refuses an empty sequence.  Every array is given by the
    list of its rows. *)
Definition np_vstack {row : Type} (arrays : list (list row)) : exn + list row :=
  match arrays with
  | [] => inl ValueError
  | _ :: _ => inr (concat arrays)
  end.

(** The characteristic coefficients of a (3,3) array. *)
Definition trace (m : mat3) : Qc := vx (row0 m) + vy (row1 m) + vz (row2 m).
Definition det (m : mat3) : Qc := vdot (row0 m) (vcross (row1 m) (row2 m)).
(** Transposed cofactor matrix: [m * adj m = det m * I]. *)
Definition adj (m : mat3) : mat3 :=
  mtrans (M3 (vcross (row1 m) (row2 m))
             (vcross (row2 m) (row0 m))
             (vcross (row0 m) (row1 m))).
(** Sum of the principal 2x2 minors. *)
Definition minors2 (m : mat3) : Qc := trace (adj m).

(** The Gram matrix [A^T A] of a (k,3) array given by its rows. *)
Fixpoint gram (A : list vec3) : mat3 :=
  match A with
  | [] => mzero
  | r :: A' => madd (outer r r) (gram A')
  end.

(** Pseudoinverse of a symmetric (3,3) array, by rank: the inverse (rank
    3), or the polynomial in [g] that inverts it on its range (rank 2 and
    rank 1), or zero. *)
Definition pinv_sym (g : mat3) : mat3 :=
  let c1 := trace g in
  let c2 := minors2 g in
  let c3 := det g in
  if Qc_eq_dec c3 0 then
    if Qc_eq_dec c2 0 then
      if Qc_eq_dec c1 0 then mzero
      else mscale (/ (c1 * c1)) g
    else mscale (/ (c2 * c2))
                (msub (mscale (c1 * c1 - c2) g) (mscale c1 (mmul g g)))
  else mscale (/ c3) (adj g).

(** Modelled from the spec: [np.linalg.pinv], the Moore-Penrose
    pseudoinverse, of a (k,3) array given by its rows.  The result has
    shape (3,k) and is given by its columns: [pinv A = (A^T A)^+ A^T].
    Below it is proved to satisfy the four Penrose equations and to be the
    only array that does. *)
Definition pinv (A : list vec3) : list vec3 :=
  map (mv (pinv_sym (gram A))) A.

(** [M.dot(b).reshape(-1)] for [M] of shape (3,k), given by its columns,
    and a column [b] of shape (k,1): the combination of the columns with
    the entries of [b]. *)
Fixpoint lincomb (cols : list vec3) (b : list Qc) : vec3 :=
  match cols, b with
  | c :: cols', x :: b' => vadd (vscale x c) (lincomb cols' b')
  | _, _ => vzero
  end.

(** [dot] refuses operands whose shapes do not match. *)
Definition np_dot (cols : list vec3) (b : list Qc) : exn + vec3 :=
  if Nat.eqb (length cols) (length b) then inr (lincomb cols b)
  else inl ValueError.

Definition vsum (l : list vec3) : vec3 := fold_right vadd vzero l.

Definition Qc_of_nat (n : nat) : Qc := Q2Qc (inject_Z (Z.of_nat n)).
Definition vdiv (u : vec3) (c : Qc) : vec3 := V3 (vx u / c) (vy u / c) (vz u / c).

(** [np.average(points, axis=0)]: the sum over the points, divided by
    their number. *)
Definition np_average (points : list vec3) : exn + vec3 :=
  match points with
  | [] => inl MeanOfEmptySlice
  | _ :: _ => inr (vdiv (vsum points) (Qc_of_nat (length points)))
  end.

(** ** The program *)

(** [itertools.combinations(l, 2)] of Python's standard library: the
    pairs of elements at positions [i < j], in lexicographic order of the
    positions. *)
Fixpoint combinations2 {A : Type} (l : list A) : list (A * A) :=
  match l with
  | [] => []
  | x :: xs => map (pair x) xs ++ combinations2 xs
  end.

(** An instance of [PivotCalibrator].  [ft] and [bt] are attributes the
    instance does not have before its first successful call.  [_bfs] is the
    caller's sequence itself (the constructor stores a reference). *)
Record PivotCalibrator : Set := mkPivotCalibrator {
  _bfs : list Transform;
  _combs : list (Transform * Transform);
  ft : option vec3;
  bt : option vec3
}.

(** Computations on an instance that may raise: the instance is threaded
    through, and whatever was assigned before a failure stays assigned. *)
Definition M (A : Type) : Type := PivotCalibrator -> PivotCalibrator * (exn + A).

Definition ret {A : Type} (a : A) : M A := fun self => (self, inr a).
Definition bind {A B : Type} (m : M A) (k : A -> M B) : M B :=
  fun self =>
    match m self with
    | (self', inr a) => k a self'
    | (self', inl e) => (self', inl e)
    end.
Definition lift {A : Type} (r : exn + A) : M A := fun self => (self, r).
Definition get : M PivotCalibrator := fun self => (self, inr self).
Definition set_ft (v : vec3) : M unit :=
  fun self => (mkPivotCalibrator (_bfs self) (_combs self) (Some v) (bt self), inr tt).
Definition set_bt (v : vec3) : M unit :=
  fun self => (mkPivotCalibrator (_bfs self) (_combs self) (ft self) (Some v), inr tt).

Notation "x <- m ;; k" := (bind m (fun x => k))
  (at level 61, m at next level, right associativity).
Notation "m ;;; k" := (bind m (fun _ => k))
  (at level 61, right associativity).

(** [PivotCalibrator.__init__]. *)
Definition __init__ (base_flange_s : list Transform) : PivotCalibrator :=
  mkPivotCalibrator base_flange_s (combinations2 base_flange_s) None None.

(** The blocks of the stacked system, one per pair. *)
Definition A_block (c : Transform * Transform) : list vec3 :=
  let '(bfi, bfj) := c in rows (msub (orient bfi) (orient bfj)).
Definition b_block (c : Transform * Transform) : list Qc :=
  let '(bfi, bfj) := c in reshape31 (vsub (pos bfj) (pos bfi)).

(** [PivotCalibrator.__call__]. *)
Definition __call__ : M (vec3 * vec3) :=
  self <- get ;;
  A <- lift (np_vstack (map A_block (_combs self))) ;;
  let dbfps := map b_block (_combs self) in
  b <- lift (np_vstack dbfps) ;;
  ft' <- lift (np_dot (pinv A) b) ;;
  set_ft ft' ;;;
  self <- get ;;
  bt' <- lift (np_average (map (fun bfi => transform_apply bfi ft') (_bfs self))) ;;
  set_bt bt' ;;;
  ret (ft', bt').

(** The specification's [calibrate(poses)]: construct, then invoke, as
    [_test] does ([pc = PivotCalibrator(bfs); pc()]). *)
Definition calibrate (poses : list Transform) : PivotCalibrator * (exn + vec3 * vec3) :=
  __call__ (__init__ poses).

(** *** Rotations and noiseless poses *)

(** Quarter turns about the z and the x axis, and the half turn about z. *)
Definition Rz90 : mat3 := M3 (V3 0 (- (1)) 0) (V3 1 0 0) (V3 0 0 1).
Definition Rx90 : mat3 := M3 (V3 1 0 0) (V3 0 0 (- (1))) (V3 0 1 0).
Definition Rz180 : mat3 := M3 (V3 (- (1)) 0 0) (V3 0 (- (1)) 0) (V3 0 0 1).

(** The pose with rotation [R] that puts the tip [Ft] on the pivot [Bt]:
    [t = Bt - R Ft], as [_test] builds it without noise. *)
Definition pose_of (Bt Ft : vec3) (R : mat3) : Transform :=
  mkTransform R (vsub Bt (mv R Ft)).

(** ** Notions the statements use *)

(** A symmetric (3,3) array. *)
Definition msym (g : mat3) : Prop := mtrans g = g.

(** The symmetric array with the given upper triangle. *)
Definition symm (a b c d e f : Qc) : mat3 :=
  M3 (V3 a b c) (V3 b d e) (V3 c e f).

(** The sum of the squares of the entries. *)
Definition frob (m : mat3) : Qc :=
  vdot (row0 m) (row0 m) + vdot (row1 m) (row1 m) + vdot (row2 m) (row2 m).

(** What [p] has to satisfy to be the Moore-Penrose inverse of a symmetric
    [g]: it is symmetric, commutes with [g], and the two are generalized
    inverses of each other. *)
Record sym_pinv_of (g p : mat3) : Prop := mk_sym_pinv_of {
  sp_sym : msym p;
  sp_comm : mmul p g = mmul g p;
  sp_gpg : mmul g (mmul p g) = g;
  sp_pgp : mmul p (mmul g p) = p
}.

(** [X A] for [X] of shape (3,k), given by its columns, and [A] of shape
    (k,3), given by its rows. *)
Fixpoint colrow (X A : list vec3) : mat3 :=
  match X, A with
  | x :: X', r :: A' => madd (outer x r) (colrow X' A')
  | _, _ => mzero
  end.

(** [A v] for [A] of shape (k,3), given by its rows. *)
Definition rows_dot (A : list vec3) (v : vec3) : list Qc :=
  map (fun r => vdot r v) A.

(** The four Penrose equations for [A] of shape (k,3), by rows, and [X] of
    shape (3,k), by columns: [A X A = A] row by row, [X A X = X] column by
    column, and the symmetry of [A X] (entry (i,j) is row i of [A] times
    column j of [X]) and of [X A]. *)
Record MoorePenrose (A X : list vec3) : Prop := mk_MoorePenrose {
  mp_shape : length X = length A;
  mp_axa : map (fun r => vm r (colrow X A)) A = A;
  mp_xax : map (mv (colrow X A)) X = X;
  mp_ax_sym : forall i j,
      vdot (nth i A vzero) (nth j X vzero) = vdot (nth j A vzero) (nth i X vzero);
  mp_xa_sym : msym (colrow X A)
}.

(** The sum of [|m r|^2] over the rows [r] of [A]. *)
Fixpoint qsum (m : mat3) (A : list vec3) : Qc :=
  match A with
  | [] => 0
  | r :: A' => vdot (mv m r) (mv m r) + qsum m A'
  end.

(** The stacked system of the call, as a function of the pair list. *)
Definition stack_A (combs : list (Transform * Transform)) : exn + list vec3 :=
  np_vstack (map A_block combs).
Definition stack_b (combs : list (Transform * Transform)) : exn + list Qc :=
  np_vstack (map b_block combs).

(** The index pairs [(i, j)], [i < j < n], in lexicographic order. *)
Definition index_pairs (n : nat) : list (nat * nat) :=
  flat_map (fun i => map (pair i) (seq (S i) (n - S i))) (seq 0 n).

Definition lex_lt (p q : nat * nat) : Prop :=
  (fst p < fst q \/ (fst p = fst q /\ snd p < snd q))%nat.

(** The binomial coefficient [C(n,k)], by Pascal's rule. *)
Fixpoint binom (n k : nat) : nat :=
  match n, k with
  | _, O => 1
  | O, S _ => 0
  | S n', S k' => (binom n' k' + binom n' k)%nat
  end.

(** The instance after [k] invocations, whatever their outcome. *)
Fixpoint calls (k : nat) (self : PivotCalibrator) : PivotCalibrator :=
  match k with
  | O => self
  | S k' => fst (__call__ (calls k' self))
  end.

(** The variant the order-sensitivity test compares with: the block of [b]
    is taken with the indices of [A], [ti - tj]; all else is [__call__]. *)
Definition b_block_naive (c : Transform * Transform) : list Qc :=
  let '(bfi, bfj) := c in reshape31 (vsub (pos bfi) (pos bfj)).

Definition call_naive : M (vec3 * vec3) :=
  self <- get ;;
  A <- lift (np_vstack (map A_block (_combs self))) ;;
  let dbfps := map b_block_naive (_combs self) in
  b <- lift (np_vstack dbfps) ;;
  ft' <- lift (np_dot (pinv A) b) ;;
  set_ft ft' ;;;
  self <- get ;;
  bt' <- lift (np_average (map (fun bfi => transform_apply bfi ft') (_bfs self))) ;;
  set_bt bt' ;;;
  ret (ft', bt').

Definition calibrate_naive (poses : list Transform)
  : PivotCalibrator * (exn + vec3 * vec3) :=
  call_naive (__init__ poses).

(** Rotations, their axes, and parallel vectors. *)
Definition is_rotation (R : mat3) : Prop :=
  mmul R (mtrans R) = mident /\ det R = 1.
Definition axis_of (R : mat3) (a : vec3) : Prop :=
  a <> vzero /\ mv R a = a.
Definition parallel (a b : vec3) : Prop := vcross a b = vzero.

(** The solve and the average of the call, as functions of the instance. *)
Definition solved_ft (self : PivotCalibrator) : vec3 :=
  lincomb (pinv (concat (map A_block (_combs self))))
          (concat (map b_block (_combs self))).

Definition averaged_bt (self : PivotCalibrator) : vec3 :=
  vdiv (vsum (map (fun bfi => transform_apply bfi (solved_ft self)) (_bfs self)))
       (Qc_of_nat (length (_bfs self))).

(** The solve and the average of the naive variant. *)
Definition solved_ft_naive (self : PivotCalibrator) : vec3 :=
  lincomb (pinv (concat (map A_block (_combs self))))
          (concat (map b_block_naive (_combs self))).

Definition averaged_bt_naive (self : PivotCalibrator) : vec3 :=
  vdiv (vsum (map (fun bfi => transform_apply bfi (solved_ft_naive self))
                  (_bfs self)))
       (Qc_of_nat (length (_bfs self))).

(** *** Inputs the statements are tried on *)

(** The ground truth of the specification's concrete scenario. *)
Definition Bt0 : vec3 := V3 (qc 1 2) (qc 3 5) (qc 7 10).
Definition Ft0 : vec3 := V3 (qc 1 10) (qc 1 20) (qc 3 20).

(** Three rotations whose changes have the z and the x axis. *)
Definition spread_rotations : list mat3 := [mident; Rz90; Rx90].
(** Three rotations about pairwise non-parallel axes that all send the z
    axis to the same direction. *)
Definition aligned_rotations : list mat3 :=
  [Rx90; mmul Rx90 Rz90; mmul Rx90 Rz180].

Definition spread_poses : list Transform := map (pose_of Bt0 Ft0) spread_rotations.
Definition aligned_poses : list Transform := map (pose_of Bt0 Ft0) aligned_rotations.

(** The axes of the three aligned rotations. *)
Definition aligned_axis1 : vec3 := V3 1 0 0.
Definition aligned_axis2 : vec3 := V3 1 (- (1)) 1.
Definition aligned_axis3 : vec3 := V3 0 1 (- (1)).

(** Exact recovery the way the specification words it: at least three
    noiseless poses, and two of the rotations have non-parallel axes. *)
Definition exact_recovery_as_stated : Prop :=
  forall (Bt Ft : vec3) (Rs : list mat3),
    (3 <= length Rs)%nat ->
    Forall is_rotation Rs ->
    (exists i j a b,
        (i < length Rs)%nat /\ (j < length Rs)%nat /\
        axis_of (nth i Rs mident) a /\ axis_of (nth j Rs mident) b /\
        ~ parallel a b) ->
    snd (calibrate (map (pose_of Bt Ft) Rs)) = inr (Ft, Bt).

(** ** Changes of frame and of unit, sums, and the test harness *)

(** An outcome with its value mapped; a failure stays the failure it is. *)
Definition on_result {A B : Type} (f : A -> B) (r : exn + A) : exn + B :=
  match r with
  | inl e => inl e
  | inr a => inr (f a)
  end.

(** The same pose after the origin of the base frame was moved: every
    translation is shifted by [c]. *)
Definition translate_pose (c : vec3) (p : Transform) : Transform :=
  mkTransform (orient p) (vadd (pos p) c).

(** The same pose with lengths in another unit: every translation is
    scaled by [s]. *)
Definition scale_pose (s : Qc) (p : Transform) : Transform :=
  mkTransform (orient p) (vscale s (pos p)).

(** The same pose seen from a base frame turned by [Q]: [Q * bf]. *)
Definition rotate_base (Q : mat3) (p : Transform) : Transform :=
  mkTransform (mmul Q (orient p)) (mv Q (pos p)).

(** The same pose of a flange frame turned by [Q]: [bf * Q]. *)
Definition rotate_tool (Q : mat3) (p : Transform) : Transform :=
  mkTransform (mmul (orient p) Q) (pos p).

(** The sum of [f x] over the elements [x] of a list, in a monoid. *)
Definition sum_over {T M : Type} (add : M -> M -> M) (zero : M)
           (f : T -> M) (l : list T) : M :=
  fold_right (fun x acc => add (f x) acc) zero l.

(** The residuals [A x - b] of the stacked equations at [x], and a sum of
    squares. *)
Fixpoint residual (A : list vec3) (b : list Qc) (x : vec3) : list Qc :=
  match A, b with
  | r :: A', beta :: b' => (vdot r x - beta) :: residual A' b' x
  | _, _ => []
  end.
Definition sum_sq (l : list Qc) : Qc := fold_right (fun a acc => a * a + acc) 0 l.

(** The square of [v.length]; the length itself has no rational value in
    general, and it is zero exactly when its square is. *)
Definition length2 (v : vec3) : Qc := vdot v v.

(** One pass of the loop of [_test]: the pose built from the drawn
    orientation [o] and the drawn noise [e], [p = bt - o * (ft + e)]. *)
Definition test_pose (bt ft : vec3) (d : mat3 * vec3) : Transform :=
  mkTransform (fst d) (vsub bt (mv (fst d) (vadd ft (snd d)))).

(** [_test(n, noise)].  The random draws are an input: one pair per pass
    of the loop, the orientation that [new_euler] makes of the drawn
    angles and the noise vector, whose entries lie in [-noise, noise]; [n]
    is their number.  [pc.ft] and [pc.bt] are the pair the call returned.
    The two errors are given by their squares. *)
Definition _test (draws : list (mat3 * vec3)) : exn + Qc * Qc :=
  let bt := Bt0 in
  let ft := Ft0 in
  let bfs := map (test_pose bt ft) draws in
  let pc := __init__ bfs in
  on_result (fun r => (length2 (vsub (fst r) ft), length2 (vsub (snd r) bt)))
            (snd (__call__ pc)).

(** Three draws with one noise vector, of the default amplitude. *)
Definition biased_draws : list (mat3 * vec3) :=
  map (fun o => (o, V3 (qc 1 200) 0 0)) spread_rotations.

(** *** Construction from a one-shot iterator *)


(** ** Algebra of (3,) and (3,3) arrays *)

Ltac destr_arrays :=
  repeat match goal with
  | m : mat3 |- _ => destruct m
  | v : vec3 |- _ => destruct v
  end.

Ltac unfold_arrays :=
  cbv [mmul vm mv mtrans madd msub mscale vadd vsub vscale vdot vcross outer
       mzero mident vzero vopp vdiv adj det trace minors2
       row0 row1 row2 vx vy vz].

Ltac by_entries :=
  repeat match goal with
  | |- M3 _ _ _ = M3 _ _ _ => apply f_equal3
  | |- V3 _ _ _ = V3 _ _ _ => apply f_equal3
  end.

(** Identities of polynomials in the entries. *)
Ltac array_ring := intros; destr_arrays; unfold_arrays; by_entries; ring.

Section OrderedField.

Lemma Qc_sq_nonneg (a : Qc) : 0 <= a * a.
Proof.
  unfold Qcle, Qcmult, Q2Qc. cbn [this].
  rewrite !Qred_correct. nra.
Qed.

Lemma Qc_add_nonneg (a b : Qc) : 0 <= a -> 0 <= b -> 0 <= a + b.
Proof.
  intros Ha Hb. unfold Qcle, Qcplus, Q2Qc in *. cbn [this] in *.
  rewrite !Qred_correct in *. lra.
Qed.

Lemma Qc_sum_nonneg_0 (a b : Qc) :
  0 <= a -> 0 <= b -> a + b = 0 -> a = 0 /\ b = 0.
Proof.
  intros Ha Hb H.
  assert (Hq : (a + b == 0)%Q).
  { rewrite <- (Qred_correct (a + b)).
    change (Qred (a + b)) with (this (a + b)). now rewrite H. }
  unfold Qcle, Q2Qc in *. cbn [this] in *. rewrite !Qred_correct in *.
  split; apply Qc_is_canon; unfold Q2Qc; cbn [this];
    rewrite !Qred_correct; lra.
Qed.

Lemma Qc_minus_eq (a b : Qc) : a - b = 0 -> a = b.
Proof.
  intros H. replace a with ((a - b) + b) by ring. rewrite H. ring.
Qed.

Lemma Qc_sq_0 (a : Qc) : a * a = 0 -> a = 0.
Proof. intros H. now destruct (Qcmult_integral _ _ H). Qed.

Lemma vdot_self_nonneg (v : vec3) : 0 <= vdot v v.
Proof.
  unfold vdot. repeat apply Qc_add_nonneg; apply Qc_sq_nonneg.
Qed.

Lemma vdot_self_0 (v : vec3) : vdot v v = 0 -> v = vzero.
Proof.
  destruct v as [a b c]. unfold vdot, vzero. cbn [vx vy vz]. intros H.
  apply Qc_sum_nonneg_0 in H as [H Hc];
    [| apply Qc_add_nonneg; apply Qc_sq_nonneg | apply Qc_sq_nonneg].
  apply Qc_sum_nonneg_0 in H as [Ha Hb]; try apply Qc_sq_nonneg.
  apply Qc_sq_0 in Ha, Hb, Hc. now subst.
Qed.

Lemma frob_0 (m : mat3) : frob m = 0 -> m = mzero.
Proof.
  destruct m as [r0 r1 r2]. unfold frob, mzero. cbn [row0 row1 row2].
  intros H.
  apply Qc_sum_nonneg_0 in H as [H H2];
    [| apply Qc_add_nonneg; apply vdot_self_nonneg | apply vdot_self_nonneg].
  apply Qc_sum_nonneg_0 in H as [H0 H1]; try apply vdot_self_nonneg.
  apply vdot_self_0 in H0, H1, H2. now subst.
Qed.

End OrderedField.

Section ArrayAlgebra.

Lemma mmul_assoc a b c : mmul (mmul a b) c = mmul a (mmul b c).
Proof. array_ring. Qed.

Lemma mmul_ident_l a : mmul mident a = a.
Proof. array_ring. Qed.

Lemma mmul_ident_r a : mmul a mident = a.
Proof. array_ring. Qed.

Lemma mmul_zero_l a : mmul mzero a = mzero.
Proof. array_ring. Qed.

Lemma mmul_zero_r a : mmul a mzero = mzero.
Proof. array_ring. Qed.

Lemma mmul_scale_l k a b : mmul (mscale k a) b = mscale k (mmul a b).
Proof. array_ring. Qed.

Lemma mmul_scale_r k a b : mmul a (mscale k b) = mscale k (mmul a b).
Proof. array_ring. Qed.

Lemma mmul_sub_l a b c : mmul (msub a b) c = msub (mmul a c) (mmul b c).
Proof. array_ring. Qed.

Lemma mscale_mscale k l a : mscale k (mscale l a) = mscale (k * l) a.
Proof. array_ring. Qed.

Lemma mscale_1 a : mscale 1 a = a.
Proof. array_ring. Qed.

Lemma mscale_0 a : mscale 0 a = mzero.
Proof. array_ring. Qed.

Lemma msub_self a : msub a a = mzero.
Proof. array_ring. Qed.

Lemma mv_mmul a b v : mv (mmul a b) v = mv a (mv b v).
Proof. array_ring. Qed.

Lemma mv_ident v : mv mident v = v.
Proof. array_ring. Qed.

Lemma mv_zero v : mv mzero v = vzero.
Proof. array_ring. Qed.

Lemma mv_msub a b v : mv (msub a b) v = vsub (mv a v) (mv b v).
Proof. array_ring. Qed.

Lemma mv_vadd a u v : mv a (vadd u v) = vadd (mv a u) (mv a v).
Proof. array_ring. Qed.

Lemma mv_vscale a k v : mv a (vscale k v) = vscale k (mv a v).
Proof. array_ring. Qed.

Lemma mv_vzero a : mv a vzero = vzero.
Proof. array_ring. Qed.

Lemma mv_madd a b v : mv (madd a b) v = vadd (mv a v) (mv b v).
Proof. array_ring. Qed.

Lemma mv_outer u w v : mv (outer u w) v = vscale (vdot w v) u.
Proof. array_ring. Qed.

Lemma vdot_comm u v : vdot u v = vdot v u.
Proof. array_ring. Qed.

Lemma vdot_mv_trans a u v : vdot u (mv a v) = vdot (mv (mtrans a) u) v.
Proof. array_ring. Qed.

Lemma vdot_vsub_r u a b : vdot u (vsub a b) = vdot u a - vdot u b.
Proof. array_ring. Qed.

Lemma vdot_vzero_r u : vdot u vzero = 0.
Proof. array_ring. Qed.

Lemma vdot_vadd_l u v w : vdot (vadd u v) w = vdot u w + vdot v w.
Proof. array_ring. Qed.

Lemma vdot_vscale_l k u w : vdot (vscale k u) w = k * vdot u w.
Proof. array_ring. Qed.

Lemma vsub_eq_zero u v : vsub u v = vzero -> u = v.
Proof.
  intros H.
  assert (Hx := f_equal vx H). assert (Hy := f_equal vy H).
  assert (Hz := f_equal vz H).
  destruct u, v. cbn [vsub vzero vx vy vz] in Hx, Hy, Hz.
  apply Qc_minus_eq in Hx, Hy, Hz. congruence.
Qed.

Lemma vsub_self u : vsub u u = vzero.
Proof. array_ring. Qed.

Lemma mtrans_involutive a : mtrans (mtrans a) = a.
Proof. array_ring. Qed.

Lemma mtrans_mmul a b : mtrans (mmul a b) = mmul (mtrans b) (mtrans a).
Proof. array_ring. Qed.

(** The adjugate inverts up to the determinant, on both sides. *)
Lemma mmul_adj_r g : mmul g (adj g) = mscale (det g) mident.
Proof. array_ring. Qed.

Lemma mmul_adj_l g : mmul (adj g) g = mscale (det g) mident.
Proof. array_ring. Qed.

Lemma det_mmul a b : det (mmul a b) = det a * det b.
Proof. array_ring. Qed.

Lemma det_ident : det mident = 1.
Proof. array_ring. Qed.

(** Cayley-Hamilton for (3,3) arrays. *)
Lemma cayley_hamilton g :
  madd (msub (mmul g (mmul g g)) (mscale (trace g) (mmul g g)))
       (mscale (minors2 g) g)
  = mscale (det g) mident.
Proof. array_ring. Qed.

End ArrayAlgebra.

(** ** The pseudoinverse of a symmetric (3,3) array *)

Section SymmetricPinv.

Lemma msym_symm g :
  msym g ->
  g = symm (vx (row0 g)) (vy (row0 g)) (vz (row0 g))
           (vy (row1 g)) (vz (row1 g)) (vz (row2 g)).
Proof.
  destruct g as [[a b c] [d e f] [h i j]]. unfold msym, mtrans, symm.
  cbn [row0 row1 row2 vx vy vz]. intros H.
  assert (H0 := f_equal row0 H). assert (H1 := f_equal row1 H).
  cbn [row0 row1] in H0, H1.
  assert (Hb := f_equal vy H0). assert (Hc := f_equal vz H0).
  assert (He := f_equal vz H1). cbn [vy vz] in Hb, Hc, He.
  now subst.
Qed.

Lemma msym_symm_intro a b c d e f : msym (symm a b c d e f).
Proof. reflexivity. Qed.

Lemma msym_mscale k g : msym g -> msym (mscale k g).
Proof.
  intros H. rewrite (msym_symm g H). unfold msym, symm. array_ring.
Qed.

Lemma msym_msub g h : msym g -> msym h -> msym (msub g h).
Proof.
  intros Hg Hh. rewrite (msym_symm g Hg), (msym_symm h Hh).
  unfold msym, symm. array_ring.
Qed.

Lemma msym_madd g h : msym g -> msym h -> msym (madd g h).
Proof.
  intros Hg Hh. rewrite (msym_symm g Hg), (msym_symm h Hh).
  unfold msym, symm. array_ring.
Qed.

Lemma msym_square g : msym g -> msym (mmul g g).
Proof.
  intros H. rewrite (msym_symm g H). unfold msym, symm. array_ring.
Qed.

Lemma msym_adj g : msym g -> msym (adj g).
Proof.
  intros H. rewrite (msym_symm g H). unfold msym, symm. array_ring.
Qed.

Lemma msym_mzero : msym mzero.
Proof. reflexivity. Qed.

Lemma msym_outer u : msym (outer u u).
Proof. unfold msym. array_ring. Qed.

Lemma msub_eq_zero a b : msub a b = mzero -> a = b.
Proof.
  intros H.
  assert (H0 := f_equal row0 H). assert (H1 := f_equal row1 H).
  assert (H2 := f_equal row2 H).
  destruct a, b. cbn [msub mzero row0 row1 row2] in H0, H1, H2.
  apply vsub_eq_zero in H0, H1, H2. congruence.
Qed.

(** Rank 2: what Cayley-Hamilton leaves of [g (a g - c1 g^2) g]. *)
Lemma rank2_identity g :
  let c1 := trace g in
  let c2 := minors2 g in
  mmul g (mmul (msub (mscale (c1 * c1 - c2) g) (mscale c1 (mmul g g))) g)
  = msub (mscale (c2 * c2) g)
         (mscale (det g) (madd (mscale c1 g) (mscale c2 mident))).
Proof. cbv zeta. array_ring. Qed.

(** Rank 1: the squared distance of a symmetric [g^2] from [c1 g]. *)
Lemma rank1_identity a b c d e f :
  let g := symm a b c d e f in
  frob (msub (mmul g g) (mscale (trace g) g))
  = (1 + 1) * minors2 g * minors2 g - (1 + 1) * trace g * det g.
Proof. cbv zeta. unfold symm, frob. array_ring. Qed.

(** Rank 0: the squared size of a symmetric array. *)
Lemma rank0_identity a b c d e f :
  let g := symm a b c d e f in
  frob g = trace g * trace g - (1 + 1) * minors2 g.
Proof. cbv zeta. unfold symm, frob. array_ring. Qed.

Lemma rank1_square g :
  msym g -> det g = 0 -> minors2 g = 0 -> mmul g g = mscale (trace g) g.
Proof.
  intros Hs Hd Hm. apply msub_eq_zero, frob_0.
  rewrite (msym_symm g Hs) in *.
  rewrite rank1_identity, Hd, Hm. ring.
Qed.

Lemma rank0_zero g :
  msym g -> minors2 g = 0 -> trace g = 0 -> g = mzero.
Proof.
  intros Hs Hm Ht. apply frob_0.
  rewrite (msym_symm g Hs) in *.
  rewrite rank0_identity, Hm, Ht. ring.
Qed.

(** A generalized inverse that is [w g] for some [w] commuting with [g]
    is reflexive. *)
Lemma pgp_of_factor g p w :
  mmul p g = mmul g p ->
  mmul g (mmul p g) = g ->
  p = mmul w g ->
  mmul p (mmul g p) = p.
Proof.
  intros Hc Hg Hw.
  rewrite <- Hc. rewrite Hw at 1. rewrite mmul_assoc.
  rewrite Hg. now symmetry.
Qed.

(** Polynomials in [g] commute with [g] and factor through it. *)
Lemma poly2_comm k a b g :
  mmul (mscale k (msub (mscale a g) (mscale b (mmul g g)))) g
  = mmul g (mscale k (msub (mscale a g) (mscale b (mmul g g)))).
Proof. array_ring. Qed.

Lemma poly2_factor k a b g :
  mscale k (msub (mscale a g) (mscale b (mmul g g)))
  = mmul (mscale k (msub (mscale a mident) (mscale b g))) g.
Proof. array_ring. Qed.

Lemma poly1_comm k g : mmul (mscale k g) g = mmul g (mscale k g).
Proof. array_ring. Qed.

Lemma poly1_factor k g : mscale k g = mmul (mscale k mident) g.
Proof. array_ring. Qed.

Lemma msub_zero_r a : msub a mzero = a.
Proof. array_ring. Qed.

End SymmetricPinv.

Section PinvSymCorrect.

Variable g : mat3.
Hypothesis g_sym : msym g.

Lemma pinv_sym_rank3 :
  det g <> 0 -> sym_pinv_of g (mscale (/ det g) (adj g)).
Proof.
  intros Hd.
  assert (Hl : mmul (mscale (/ det g) (adj g)) g = mident).
  { rewrite mmul_scale_l, mmul_adj_l, mscale_mscale.
    rewrite Qcmult_inv_l by assumption. apply mscale_1. }
  assert (Hr : mmul g (mscale (/ det g) (adj g)) = mident).
  { rewrite mmul_scale_r, mmul_adj_r, mscale_mscale.
    rewrite Qcmult_inv_l by assumption. apply mscale_1. }
  split.
  - apply msym_mscale, msym_adj, g_sym.
  - now rewrite Hl, Hr.
  - now rewrite Hl, mmul_ident_r.
  - now rewrite Hr, mmul_ident_r.
Qed.

Lemma pinv_sym_rank2 :
  det g = 0 -> minors2 g <> 0 ->
  sym_pinv_of g
    (mscale (/ (minors2 g * minors2 g))
       (msub (mscale (trace g * trace g - minors2 g) g)
             (mscale (trace g) (mmul g g)))).
Proof.
  intros Hd Hm.
  set (c1 := trace g). set (c2 := minors2 g).
  set (q := msub (mscale (c1 * c1 - c2) g) (mscale c1 (mmul g g))).
  assert (Hc2 : c2 * c2 <> 0).
  { intros H. now apply Qcmult_integral in H as [H | H]. }
  assert (Hcomm : mmul (mscale (/ (c2 * c2)) q) g
                  = mmul g (mscale (/ (c2 * c2)) q)).
  { apply poly2_comm. }
  assert (Hgpg : mmul g (mmul (mscale (/ (c2 * c2)) q) g) = g).
  { rewrite mmul_scale_l, mmul_scale_r. subst q c1 c2.
    rewrite rank2_identity, Hd, mscale_0, msub_zero_r.
    rewrite mscale_mscale, Qcmult_inv_l by assumption. apply mscale_1. }
  split.
  - apply msym_mscale, msym_msub; apply msym_mscale;
      [ apply g_sym | apply msym_square, g_sym ].
  - exact Hcomm.
  - exact Hgpg.
  - apply (pgp_of_factor g _
             (mscale (/ (c2 * c2))
                (msub (mscale (c1 * c1 - c2) mident) (mscale c1 g))));
      [ exact Hcomm | exact Hgpg | apply poly2_factor ].
Qed.

Lemma pinv_sym_rank1 :
  det g = 0 -> minors2 g = 0 -> trace g <> 0 ->
  sym_pinv_of g (mscale (/ (trace g * trace g)) g).
Proof.
  intros Hd Hm Ht.
  assert (Hsq := rank1_square g g_sym Hd Hm).
  set (c1 := trace g) in *.
  assert (Hc1 : c1 * c1 <> 0).
  { intros H. now apply Qcmult_integral in H as [H | H]. }
  assert (Hcomm : mmul (mscale (/ (c1 * c1)) g) g
                  = mmul g (mscale (/ (c1 * c1)) g)).
  { apply poly1_comm. }
  assert (Hgpg : mmul g (mmul (mscale (/ (c1 * c1)) g) g) = g).
  { rewrite mmul_scale_l, mmul_scale_r, Hsq, mmul_scale_r, Hsq.
    rewrite !mscale_mscale.
    replace (/ (c1 * c1) * c1 * c1) with (/ (c1 * c1) * (c1 * c1)) by ring.
    rewrite Qcmult_inv_l by assumption. apply mscale_1. }
  split.
  - apply msym_mscale, g_sym.
  - exact Hcomm.
  - exact Hgpg.
  - apply (pgp_of_factor g _ (mscale (/ (c1 * c1)) mident));
      [ exact Hcomm | exact Hgpg | apply poly1_factor ].
Qed.

Lemma pinv_sym_rank0 :
  minors2 g = 0 -> trace g = 0 -> sym_pinv_of g mzero.
Proof.
  intros Hm Ht. rewrite (rank0_zero g g_sym Hm Ht).
  split; reflexivity.
Qed.

(** [pinv_sym] is the Moore-Penrose inverse on symmetric arrays. *)
Lemma pinv_sym_correct : sym_pinv_of g (pinv_sym g).
Proof.
  unfold pinv_sym.
  destruct (Qc_eq_dec (det g) 0) as [Hd | Hd];
    [ destruct (Qc_eq_dec (minors2 g) 0) as [Hm | Hm];
      [ destruct (Qc_eq_dec (trace g) 0) as [Ht | Ht] | ] | ].
  - now apply pinv_sym_rank0.
  - now apply pinv_sym_rank1.
  - now apply pinv_sym_rank2.
  - now apply pinv_sym_rank3.
Qed.

End PinvSymCorrect.

(** ** The Gram matrix and the pseudoinverse of a stacked array *)

Section Gram.

Lemma gram_sym A : msym (gram A).
Proof.
  induction A as [| r A IH]; cbn [gram].
  - exact msym_mzero.
  - apply msym_madd; [ apply msym_outer | exact IH ].
Qed.

Lemma trace_congruence_step m r g :
  trace (mmul (mmul m (madd (outer r r) g)) (mtrans m))
  = vdot (mv m r) (mv m r) + trace (mmul (mmul m g) (mtrans m)).
Proof. array_ring. Qed.

Lemma trace_mzero : trace mzero = 0.
Proof. reflexivity. Qed.

(** [sum |m r|^2 = tr (m (A^T A) m^T)]. *)
Lemma qsum_trace m A :
  qsum m A = trace (mmul (mmul m (gram A)) (mtrans m)).
Proof.
  induction A as [| r A IH]; cbn [qsum gram].
  - now rewrite mmul_zero_r, mmul_zero_l.
  - now rewrite trace_congruence_step, IH.
Qed.

Lemma qsum_nonneg m A : 0 <= qsum m A.
Proof.
  induction A as [| r A IH]; cbn [qsum].
  - apply Qcle_refl.
  - apply Qc_add_nonneg; [ apply vdot_self_nonneg | exact IH ].
Qed.

Lemma qsum_zero m A :
  qsum m A = 0 -> Forall (fun r => mv m r = vzero) A.
Proof.
  induction A as [| r A IH]; cbn [qsum]; intros H.
  - constructor.
  - apply Qc_sum_nonneg_0 in H as [Hr HA];
      [ | apply vdot_self_nonneg | apply qsum_nonneg ].
    constructor; [ now apply vdot_self_0 | now apply IH ].
Qed.

(** What annihilates the Gram matrix annihilates every row. *)
Lemma gram_annihilated m A :
  mmul m (gram A) = mzero -> Forall (fun r => mv m r = vzero) A.
Proof.
  intros H. apply qsum_zero. now rewrite qsum_trace, H, mmul_zero_l.
Qed.

Lemma outer_mv p r : outer (mv p r) r = mmul p (outer r r).
Proof. array_ring. Qed.

Lemma mmul_madd_r p a b : mmul p (madd a b) = madd (mmul p a) (mmul p b).
Proof. array_ring. Qed.

Lemma colrow_map_mv p A : colrow (map (mv p) A) A = mmul p (gram A).
Proof.
  induction A as [| r A IH]; cbn [map colrow gram].
  - now rewrite mmul_zero_r.
  - now rewrite IH, outer_mv, mmul_madd_r.
Qed.

Lemma lincomb_map_mv p A b : lincomb (map (mv p) A) b = mv p (lincomb A b).
Proof.
  revert b. induction A as [| r A IH]; intros [| x b]; cbn [map lincomb];
    try (now rewrite mv_vzero).
  now rewrite IH, mv_vadd, mv_vscale.
Qed.

Lemma vadd_outer_step r v w :
  vadd (vscale (vdot r v) r) w = vadd (mv (outer r r) v) w.
Proof. array_ring. Qed.

(** [A^T (A v) = (A^T A) v]. *)
Lemma lincomb_rows_dot A v : lincomb A (rows_dot A v) = mv (gram A) v.
Proof.
  unfold rows_dot.
  induction A as [| r A IH]; cbn [map lincomb gram].
  - now rewrite mv_zero.
  - now rewrite IH, mv_madd, vadd_outer_step.
Qed.

Lemma lincomb_fixed m A b :
  Forall (fun r => mv m r = r) A -> mv m (lincomb A b) = lincomb A b.
Proof.
  intros H. revert b.
  induction H as [| r A Hr HA IH]; intros [| x b]; cbn [lincomb];
    rewrite ?mv_vzero; try reflexivity.
  now rewrite mv_vadd, mv_vscale, Hr, IH.
Qed.

Lemma lincomb_orthogonal A b v :
  Forall (fun r => vdot r v = 0) A -> vdot (lincomb A b) v = 0.
Proof.
  intros H. revert b.
  induction H as [| r A Hr HA IH]; intros [| x b]; cbn [lincomb].
  1-3: now rewrite vdot_comm, vdot_vzero_r.
  rewrite vdot_vadd_l, vdot_vscale_l, Hr, IH. ring.
Qed.

End Gram.

Section PinvCorrect.

Variable A : list vec3.

Let G := gram A.
Let P := pinv_sym G.

Lemma pinv_gram_spec : sym_pinv_of G P.
Proof. apply pinv_sym_correct, gram_sym. Qed.

(** The rows of [A] are fixed by the projector [G P]. *)
Lemma rows_fixed : Forall (fun r => mv (mmul G P) r = r) A.
Proof.
  destruct pinv_gram_spec as [_ Hc Hg _].
  assert (H0 : mmul (msub mident (mmul G P)) G = mzero).
  { rewrite mmul_sub_l, mmul_ident_l, mmul_assoc, Hg. apply msub_self. }
  apply gram_annihilated in H0.
  eapply Forall_impl; [ | exact H0 ].
  intros r Hr. cbv beta in Hr.
  rewrite mv_msub, mv_ident in Hr.
  symmetry. now apply vsub_eq_zero.
Qed.

Lemma map_fixed (f : vec3 -> vec3) (l : list vec3) :
  Forall (fun r => f r = r) l -> map f l = l.
Proof.
  induction 1 as [| r l Hr Hl IH]; cbn [map]; congruence.
Qed.

Lemma vdot_sym_swap p u v : msym p -> vdot u (mv p v) = vdot v (mv p u).
Proof.
  intros Hp. rewrite vdot_mv_trans, Hp. apply vdot_comm.
Qed.

(** [pinv] satisfies the four Penrose equations: it is the Moore-Penrose
    pseudoinverse. *)
Lemma pinv_MoorePenrose : MoorePenrose A (pinv A).
Proof.
  destruct pinv_gram_spec as [Hs Hc Hg Hp].
  assert (HGs : msym G) by apply gram_sym.
  unfold pinv. fold G. fold P.
  assert (HXA : colrow (map (mv P) A) A = mmul P G) by apply colrow_map_mv.
  split.
  - apply length_map.
  - rewrite HXA. apply map_fixed.
    eapply Forall_impl; [ | exact rows_fixed ].
    intros r Hr. cbv beta in *. unfold vm.
    now rewrite mtrans_mmul, HGs, Hs.
  - rewrite HXA, map_map. apply map_ext. intros r.
    now rewrite <- mv_mmul, mmul_assoc, Hp.
  - intros i j.
    rewrite <- (mv_vzero P) at 2 4. rewrite !map_nth.
    now apply vdot_sym_swap.
  - rewrite HXA. unfold msym. now rewrite mtrans_mmul, HGs, Hs.
Qed.

(** The solve in terms of the Gram matrix: [pinv(A) b = P (A^T b)]. *)
Lemma pinv_dot b : lincomb (pinv A) b = mv P (lincomb A b).
Proof. unfold pinv, P, G. now rewrite lincomb_map_mv. Qed.

(** Least squares: the solution satisfies the normal equations. *)
Lemma pinv_normal_equations b :
  mv G (lincomb (pinv A) b) = lincomb A b.
Proof.
  rewrite pinv_dot, <- mv_mmul. apply lincomb_fixed, rows_fixed.
Qed.

(** The Gram matrix has the null space of [A]. *)
Lemma gram_null v : Forall (fun r => vdot r v = 0) A -> mv G v = vzero.
Proof.
  intros H. unfold G. rewrite <- lincomb_rows_dot. unfold rows_dot.
  clear G P. induction H as [| r l Hr Hl IH]; cbn [map lincomb].
  - reflexivity.
  - rewrite Hr, IH. array_ring.
Qed.

(** Minimum norm: the solution is orthogonal to the null space of [A]. *)
Lemma pinv_min_norm b v :
  Forall (fun r => vdot r v = 0) A -> vdot (lincomb (pinv A) b) v = 0.
Proof.
  intros H. destruct pinv_gram_spec as [Hs Hc Hg Hp].
  rewrite pinv_dot, vdot_comm, vdot_sym_swap by exact Hs.
  assert (HPv : mv P v = vzero).
  { rewrite <- Hp, <- Hc, !mv_mmul, (gram_null v H). now rewrite !mv_vzero. }
  rewrite HPv. apply vdot_vzero_r.
Qed.

(** With a trivial null space, [pinv(A) A] is the identity. *)
Lemma pinv_left_inverse v :
  (forall w, Forall (fun r => vdot r w = 0) A -> w = vzero) ->
  lincomb (pinv A) (rows_dot A v) = v.
Proof.
  intros Hnull. destruct pinv_gram_spec as [Hs Hc Hg Hp].
  rewrite pinv_dot, lincomb_rows_dot. fold G. rewrite <- mv_mmul.
  symmetry. apply vsub_eq_zero, Hnull.
  eapply Forall_impl; [ | exact rows_fixed ].
  intros r Hr. cbv beta in *.
  rewrite vdot_vsub_r, vdot_mv_trans, mtrans_mmul, Hs.
  rewrite (gram_sym A : mtrans G = G), Hr. ring.
Qed.

End PinvCorrect.

(** ** Pair enumeration *)

Section Combinations.

Lemma binom_1 n : binom n 1 = n.
Proof.
  induction n as [| n IH]; [ reflexivity | ].
  cbn [binom]. rewrite IH. destruct n; reflexivity.
Qed.

Lemma binom_2_double n : (2 * binom n 2 = n * (n - 1))%nat.
Proof.
  induction n as [| n IH]; [ reflexivity | ].
  change (binom (S n) 2) with (binom n 1 + binom n 2)%nat.
  rewrite binom_1. destruct n as [| n]; [ reflexivity | ].
  replace (S (S n) - 1)%nat with (S n) by lia.
  replace (S n - 1)%nat with n in IH by lia. nia.
Qed.

Lemma combinations2_length {T} (l : list T) :
  length (combinations2 l) = binom (length l) 2.
Proof.
  induction l as [| x xs IH]; [ reflexivity | ].
  cbn [combinations2 length].
  change (binom (S (length xs)) 2)
    with (binom (length xs) 1 + binom (length xs) 2)%nat.
  now rewrite length_app, length_map, IH, binom_1.
Qed.

Lemma combinations2_nil_iff {T} (l : list T) :
  combinations2 l = [] <-> (length l < 2)%nat.
Proof.
  destruct l as [| x [| y ys]]; cbn; split; intros H;
    try reflexivity; try lia; discriminate.
Qed.

Lemma index_pairs_S n :
  index_pairs (S n)
  = map (pair 0%nat) (seq 1 n)
    ++ map (fun p => (S (fst p), S (snd p))) (index_pairs n).
Proof.
  unfold index_pairs. cbn [seq flat_map].
  replace (S n - 1)%nat with n by lia. f_equal.
  rewrite <- seq_shift.
  rewrite !flat_map_concat_map, concat_map, !map_map. f_equal.
  apply map_ext. intros i.
  replace (S n - S (S i))%nat with (n - S i)%nat by lia.
  rewrite <- (seq_shift (n - S i) (S i)), !map_map. reflexivity.
Qed.

Lemma map_nth_seq {T} (l : list T) (d : T) :
  map (fun i => nth i l d) (seq 0 (length l)) = l.
Proof.
  induction l as [| x xs IH]; [ reflexivity | ].
  cbn [length seq map nth]. f_equal.
  rewrite <- seq_shift, map_map. exact IH.
Qed.

Lemma combinations2_index_pairs {T} (l : list T) (d : T) :
  combinations2 l
  = map (fun p => (nth (fst p) l d, nth (snd p) l d)) (index_pairs (length l)).
Proof.
  induction l as [| x xs IH]; [ reflexivity | ].
  cbn [combinations2 length]. rewrite index_pairs_S, map_app, !map_map.
  cbn [fst snd nth]. f_equal; [ | exact IH ].
  rewrite <- seq_shift, map_map.
  rewrite <- (map_nth_seq xs d) at 1.
  now rewrite map_map.
Qed.

Lemma In_index_pairs n i j : In (i, j) (index_pairs n) <-> (i < j < n)%nat.
Proof.
  unfold index_pairs. rewrite in_flat_map. split.
  - intros [x [Hx H]]. apply in_map_iff in H as [y [Heq Hy]].
    injection Heq as -> ->. apply in_seq in Hx, Hy. lia.
  - intros H. exists i. split; [ apply in_seq; lia | ].
    apply in_map, in_seq. lia.
Qed.

Lemma StronglySorted_app_intro {T} (R : T -> T -> Prop) l1 l2 :
  StronglySorted R l1 -> StronglySorted R l2 ->
  (forall x y, In x l1 -> In y l2 -> R x y) ->
  StronglySorted R (l1 ++ l2).
Proof.
  intros H1 H2 H. induction H1 as [| a l1 Hs IH Ha]; [ exact H2 | ].
  cbn [app]. constructor.
  - apply IH. intros x y Hx Hy. apply H; [ now right | exact Hy ].
  - apply Forall_app. split; [ exact Ha | ].
    apply Forall_forall. intros y Hy. apply H; [ now left | exact Hy ].
Qed.

Lemma StronglySorted_map_intro {T U} (R : T -> T -> Prop) (R' : U -> U -> Prop)
      (f : T -> U) l :
  (forall x y, R x y -> R' (f x) (f y)) ->
  StronglySorted R l -> StronglySorted R' (map f l).
Proof.
  intros Hf H. induction H as [| a l Hs IH Ha]; cbn [map]; constructor.
  - exact IH.
  - apply Forall_map. eapply Forall_impl; [ | exact Ha ].
    intros y Hy. now apply Hf.
Qed.

Lemma seq_sorted a n : StronglySorted lt (seq a n).
Proof.
  revert a. induction n as [| n IH]; intros a; cbn [seq]; constructor.
  - apply IH.
  - apply Forall_forall. intros y Hy. apply in_seq in Hy. lia.
Qed.

Lemma index_pairs_sorted n : StronglySorted lex_lt (index_pairs n).
Proof.
  induction n as [| n IH]; [ constructor | ].
  rewrite index_pairs_S. apply StronglySorted_app_intro.
  - apply (StronglySorted_map_intro lt); [ | apply seq_sorted ].
    intros x y Hxy. right. cbn [fst snd]. split; [ reflexivity | exact Hxy ].
  - apply (StronglySorted_map_intro lex_lt); [ | exact IH ].
    intros [i j] [k l] [H | [H1 H2]]; cbn [fst snd] in *.
    + left. cbn [fst]. lia.
    + right. cbn [fst snd]. lia.
  - intros x y Hx Hy.
    apply in_map_iff in Hx as [a [<- _]].
    apply in_map_iff in Hy as [p [<- _]].
    left. cbn [fst]. lia.
Qed.

Lemma index_pairs_length n : length (index_pairs n) = binom n 2.
Proof.
  transitivity (length (combinations2 (seq 0 n))).
  - now rewrite (combinations2_index_pairs (seq 0 n) 0%nat), length_map,
      length_seq.
  - now rewrite combinations2_length, length_seq.
Qed.

End Combinations.

(** ** The call, case by case *)

Section Call.

Lemma length_concat_A_blocks combs :
  length (concat (map A_block combs)) = (3 * length combs)%nat.
Proof.
  induction combs as [| [bfi bfj] cs IH]; [ reflexivity | ].
  cbn [map concat length]. rewrite length_app, IH.
  cbn [A_block rows length]. lia.
Qed.

Lemma length_concat_b_blocks combs :
  length (concat (map b_block combs)) = (3 * length combs)%nat.
Proof.
  induction combs as [| [bfi bfj] cs IH]; [ reflexivity | ].
  cbn [map concat length]. rewrite length_app, IH.
  cbn [b_block reshape31 length]. lia.
Qed.

Lemma np_vstack_nonempty {row : Type} (arrays : list (list row)) :
  arrays <> [] -> np_vstack arrays = inr (concat arrays).
Proof. destruct arrays; [ congruence | reflexivity ]. Qed.

Lemma np_dot_same_length cols b :
  length cols = length b -> np_dot cols b = inr (lincomb cols b).
Proof.
  intros H. unfold np_dot. now rewrite H, Nat.eqb_refl.
Qed.

Lemma np_average_nonempty points :
  points <> [] ->
  np_average points = inr (vdiv (vsum points) (Qc_of_nat (length points))).
Proof. destruct points; [ congruence | reflexivity ]. Qed.

Lemma map_nonempty {T U} (f : T -> U) l : l <> [] -> map f l <> [].
Proof. destruct l; [ congruence | discriminate ]. Qed.

(** No pairs: the call raises at the first [np.vstack], before anything
    is assigned. *)
Lemma call_no_pairs self :
  _combs self = [] -> __call__ self = (self, inl ValueError).
Proof.
  intros H. unfold __call__, bind, get, lift. rewrite H. reflexivity.
Qed.

(** Pairs and poses: the call returns, with both attributes assigned. *)
Lemma call_returns self :
  _combs self <> [] -> _bfs self <> [] ->
  __call__ self
  = (mkPivotCalibrator (_bfs self) (_combs self)
       (Some (solved_ft self)) (Some (averaged_bt self)),
     inr (solved_ft self, averaged_bt self)).
Proof.
  intros Hc Hb. unfold __call__, bind, get, lift, set_ft, set_bt, ret.
  rewrite !np_vstack_nonempty by now apply map_nonempty.
  rewrite np_dot_same_length
    by (unfold pinv; now rewrite length_map, length_concat_A_blocks,
                                 length_concat_b_blocks).
  cbn [_bfs _combs ft bt].
  rewrite np_average_nonempty by now apply map_nonempty.
  rewrite length_map. reflexivity.
Qed.

(** Pairs but no poses, a state no construction yields: the average has no
    value, after [ft] was assigned. *)
Lemma call_no_poses self :
  _combs self <> [] -> _bfs self = [] ->
  __call__ self
  = (mkPivotCalibrator [] (_combs self) (Some (solved_ft self)) (bt self),
     inl MeanOfEmptySlice).
Proof.
  intros Hc Hb. unfold __call__, bind, get, lift, set_ft, set_bt, ret.
  rewrite !np_vstack_nonempty by now apply map_nonempty.
  rewrite np_dot_same_length
    by (unfold pinv; now rewrite length_map, length_concat_A_blocks,
                                 length_concat_b_blocks).
  cbn [_bfs _combs ft bt]. rewrite Hb. reflexivity.
Qed.

End Call.

(** ** Noiseless poses *)

Section Noiseless.

Lemma Qc_of_nat_S n : Qc_of_nat (S n) = 1 + Qc_of_nat n.
Proof.
  apply Qc_is_canon. unfold Qc_of_nat, Qcplus, Q2Qc. cbn [this].
  rewrite !Qred_correct. unfold Qeq, Qplus, inject_Z. cbn [Qnum Qden].
  lia.
Qed.

Lemma Qc_of_nat_nonzero n : n <> O -> Qc_of_nat n <> 0.
Proof.
  intros Hn H. unfold Qc_of_nat in H.
  apply Q2Qc_eq_iff in H. unfold Qeq, inject_Z in H. cbn [Qnum Qden] in H.
  lia.
Qed.

Lemma vsum_const (T : Type) (l : list T) c :
  vsum (map (fun _ => c) l) = vscale (Qc_of_nat (length l)) c.
Proof.
  induction l as [| x l IH]; cbn [map vsum fold_right length].
  - change (Qc_of_nat 0) with (Q2Qc 0). array_ring.
  - fold (vsum (map (fun _ : T => c) l)). rewrite IH, Qc_of_nat_S. array_ring.
Qed.

Lemma vdiv_vscale k c : k <> 0 -> vdiv (vscale k c) k = c.
Proof.
  intros Hk. destruct c as [x y z]. unfold vdiv, vscale. cbn [vx vy vz].
  f_equal; field; exact Hk.
Qed.

Lemma vscale_vdiv k c : k <> 0 -> vscale k (vdiv c k) = c.
Proof.
  intros Hk. destruct c as [x y z]. unfold vdiv, vscale. cbn [vx vy vz].
  f_equal; field; exact Hk.
Qed.

Lemma transform_apply_pose_of Bt Ft R :
  transform_apply (pose_of Bt Ft R) Ft = Bt.
Proof. unfold transform_apply, pose_of. cbn [orient pos]. array_ring. Qed.

(** On noiseless poses the right-hand side is [A Ft]. *)
Lemma b_block_pose_of Bt Ft R R' :
  b_block (pose_of Bt Ft R, pose_of Bt Ft R')
  = rows_dot (A_block (pose_of Bt Ft R, pose_of Bt Ft R')) Ft.
Proof.
  unfold b_block, A_block, pose_of, rows_dot, rows, reshape31.
  cbn [orient pos map].
  destruct R as [r0 r1 r2], R' as [s0 s1 s2], Bt, Ft, r0, r1, r2, s0, s1, s2.
  unfold_arrays. repeat (f_equal; try ring).
Qed.

Lemma combinations2_map {T U} (f : T -> U) (l : list T) :
  combinations2 (map f l)
  = map (fun p => (f (fst p), f (snd p))) (combinations2 l).
Proof.
  induction l as [| x xs IH]; [ reflexivity | ].
  cbn [map combinations2]. now rewrite map_app, IH, !map_map.
Qed.

Lemma rows_dot_app A1 A2 v : rows_dot (A1 ++ A2) v = rows_dot A1 v ++ rows_dot A2 v.
Proof. apply map_app. Qed.

Lemma stacked_rhs_of_blocks Ft combs :
  Forall (fun c => b_block c = rows_dot (A_block c) Ft) combs ->
  concat (map b_block combs) = rows_dot (concat (map A_block combs)) Ft.
Proof.
  induction 1 as [| c cs Hc Hcs IH]; [ reflexivity | ].
  cbn [map concat]. now rewrite rows_dot_app, Hc, IH.
Qed.

(** Noiseless poses solve the stacked system exactly: [b = A Ft]. *)
Lemma stacked_rhs_noiseless Bt Ft Rs :
  let combs := combinations2 (map (pose_of Bt Ft) Rs) in
  concat (map b_block combs) = rows_dot (concat (map A_block combs)) Ft.
Proof.
  cbv zeta. apply stacked_rhs_of_blocks.
  rewrite combinations2_map. apply Forall_forall. intros c Hc.
  apply in_map_iff in Hc as [[R R'] [<- _]]. cbn [fst snd].
  apply b_block_pose_of.
Qed.

Lemma rows_orthogonal m w :
  Forall (fun r => vdot r w = 0) (rows m) -> mv m w = vzero.
Proof.
  intros H. unfold rows in H.
  apply Forall_cons_iff in H as [H0 H]. apply Forall_cons_iff in H as [H1 H].
  apply Forall_cons_iff in H as [H2 _].
  unfold mv. now rewrite H0, H1, H2.
Qed.

(** A vector in the null space of the stacked [A] has the same image
    under the rotations of any two poses. *)
Lemma null_space_same_image (ps : list Transform) (d : Transform) w :
  Forall (fun r => vdot r w = 0) (concat (map A_block (combinations2 ps))) ->
  forall i j, (i < length ps)%nat -> (j < length ps)%nat ->
    mv (orient (nth i ps d)) w = mv (orient (nth j ps d)) w.
Proof.
  intros H.
  assert (Hlt : forall i j, (i < j < length ps)%nat ->
            mv (orient (nth i ps d)) w = mv (orient (nth j ps d)) w).
  { intros i j Hij. apply vsub_eq_zero. rewrite <- mv_msub.
    apply rows_orthogonal. apply Forall_forall. intros r Hr.
    rewrite Forall_forall in H. apply H.
    apply in_concat. exists (A_block (nth i ps d, nth j ps d)).
    split; [ | exact Hr ].
    apply in_map. rewrite (combinations2_index_pairs ps d).
    apply (in_map (fun p => (nth (fst p) ps d, nth (snd p) ps d)) _ (i, j)).
    now apply In_index_pairs. }
  intros i j Hi Hj.
  destruct (Nat.lt_trichotomy i j) as [Hij | [-> | Hji]].
  - apply Hlt. lia.
  - reflexivity.
  - symmetry. apply Hlt. lia.
Qed.

(** Exact recovery whenever the stacked [A] has a trivial null space. *)
Lemma recovery_trivial_null_space Bt Ft Rs :
  (forall w,
      (forall i j, (i < length Rs)%nat -> (j < length Rs)%nat ->
                   mv (nth i Rs mident) w = mv (nth j Rs mident) w) ->
      w = vzero) ->
  calibrate (map (pose_of Bt Ft) Rs)
  = (mkPivotCalibrator (map (pose_of Bt Ft) Rs)
       (combinations2 (map (pose_of Bt Ft) Rs)) (Some Ft) (Some Bt),
     inr (Ft, Bt)).
Proof.
  intros Hnull.
  set (ps := map (pose_of Bt Ft) Rs).
  assert (Hlen : (2 <= length ps)%nat).
  { destruct (le_lt_dec 2 (length ps)) as [H | H]; [ exact H | exfalso ].
    assert (He : V3 1 0 0 = vzero).
    { apply Hnull. intros i j Hi Hj. unfold ps in H. rewrite length_map in H.
      replace j with i by lia. reflexivity. }
    apply (f_equal vx) in He. cbn [vx vzero] in He. now apply Q_apart_0_1. }
  assert (Hft : solved_ft (__init__ ps) = Ft).
  { unfold solved_ft, __init__. cbn [_combs]. unfold ps.
    rewrite stacked_rhs_noiseless. apply pinv_left_inverse.
    intros w Hw. apply Hnull. intros i j Hi Hj.
    assert (H := null_space_same_image _ (pose_of Bt Ft mident) w Hw i j).
    rewrite length_map in H. specialize (H Hi Hj).
    rewrite !(map_nth (pose_of Bt Ft)) in H. exact H. }
  assert (Hbt : averaged_bt (__init__ ps) = Bt).
  { unfold averaged_bt. rewrite Hft. unfold __init__. cbn [_bfs].
    unfold ps at 1. rewrite map_map.
    rewrite (map_ext _ (fun _ => Bt))
      by (intros R; apply transform_apply_pose_of).
    rewrite vsum_const. unfold ps at 1. rewrite length_map.
    apply vdiv_vscale, Qc_of_nat_nonzero.
    unfold ps in Hlen. rewrite length_map in Hlen. lia. }
  unfold calibrate. rewrite call_returns.
  - now rewrite Hft, Hbt.
  - cbn [__init__ _combs]. intros H. apply combinations2_nil_iff in H. lia.
  - cbn [__init__ _bfs]. intros H. rewrite H in Hlen. cbn in Hlen. lia.
Qed.

End Noiseless.

(** ** Repeated invocation, and the naive variant *)

Section Instances.

(** A call leaves the poses and the pairs of the instance as they are. *)
Lemma call_frame self :
  exists f b,
    fst (__call__ self) = mkPivotCalibrator (_bfs self) (_combs self) f b.
Proof.
  destruct (_combs self) as [| c cs] eqn:Hc.
  - exists (ft self), (bt self). rewrite call_no_pairs by exact Hc.
    cbn [fst]. rewrite <- Hc. now destruct self.
  - destruct (_bfs self) as [| p ps] eqn:Hb.
    + eexists _, _. rewrite call_no_poses by congruence.
      cbn [fst]. now rewrite Hc.
    + eexists _, _. rewrite call_returns by congruence.
      cbn [fst]. now rewrite Hc, Hb.
Qed.

Lemma call_bfs self : _bfs (fst (__call__ self)) = _bfs self.
Proof. destruct (call_frame self) as [f [b ->]]. reflexivity. Qed.

Lemma call_combs self : _combs (fst (__call__ self)) = _combs self.
Proof. destruct (call_frame self) as [f [b ->]]. reflexivity. Qed.

Lemma calls_bfs k self : _bfs (calls k self) = _bfs self.
Proof.
  induction k as [| k IH]; [ reflexivity | ].
  cbn [calls]. now rewrite call_bfs.
Qed.

Lemma calls_combs k self : _combs (calls k self) = _combs self.
Proof.
  induction k as [| k IH]; [ reflexivity | ].
  cbn [calls]. now rewrite call_combs.
Qed.

(** The outcome of a call depends on the poses and the pairs only. *)
Lemma call_result_congruence self self' :
  _bfs self = _bfs self' -> _combs self = _combs self' ->
  snd (__call__ self) = snd (__call__ self').
Proof.
  intros Hb Hc.
  assert (Hft : solved_ft self = solved_ft self')
    by (unfold solved_ft; now rewrite Hc).
  assert (Hbt : averaged_bt self = averaged_bt self')
    by (unfold averaged_bt; now rewrite Hft, Hb).
  destruct (_combs self) as [| c cs] eqn:Ec.
  - rewrite (call_no_pairs self), (call_no_pairs self') by congruence.
    reflexivity.
  - destruct (_bfs self) as [| p ps] eqn:Eb.
    + rewrite (call_no_poses self), (call_no_poses self') by congruence.
      reflexivity.
    + rewrite (call_returns self), (call_returns self') by congruence.
      cbn [snd]. now rewrite Hft, Hbt.
Qed.

(** With fewer than two poses no call changes the instance. *)
Lemma calls_insufficient k poses :
  (length poses < 2)%nat -> calls k (__init__ poses) = __init__ poses.
Proof.
  intros H. induction k as [| k IH]; [ reflexivity | ].
  cbn [calls]. rewrite IH, call_no_pairs; [ reflexivity | ].
  cbn [__init__ _combs]. now apply combinations2_nil_iff.
Qed.

Lemma init_nonempty poses :
  (2 <= length poses)%nat ->
  _combs (__init__ poses) <> [] /\ _bfs (__init__ poses) <> [].
Proof.
  intros H. cbn [__init__ _combs _bfs]. split; intros E.
  - apply combinations2_nil_iff in E. lia.
  - rewrite E in H. cbn in H. lia.
Qed.

(** The naive variant solves for the opposite vector. *)
Lemma length_concat_b_blocks_naive combs :
  length (concat (map b_block_naive combs)) = (3 * length combs)%nat.
Proof.
  induction combs as [| [bfi bfj] cs IH]; [ reflexivity | ].
  cbn [map concat length]. rewrite length_app, IH.
  cbn [b_block_naive reshape31 length]. lia.
Qed.

Lemma call_naive_returns self :
  _combs self <> [] -> _bfs self <> [] ->
  call_naive self
  = (mkPivotCalibrator (_bfs self) (_combs self)
       (Some (solved_ft_naive self)) (Some (averaged_bt_naive self)),
     inr (solved_ft_naive self, averaged_bt_naive self)).
Proof.
  intros Hc Hb. unfold call_naive, bind, get, lift, set_ft, set_bt, ret.
  rewrite !np_vstack_nonempty by now apply map_nonempty.
  rewrite np_dot_same_length
    by (unfold pinv; now rewrite length_map, length_concat_A_blocks,
                                 length_concat_b_blocks_naive).
  cbn [_bfs _combs ft bt].
  rewrite np_average_nonempty by now apply map_nonempty.
  rewrite length_map. reflexivity.
Qed.

Lemma b_block_naive_opp c : b_block_naive c = map Qcopp (b_block c).
Proof.
  destruct c as [[Ri ti] [Rj tj]]. unfold b_block_naive, b_block, reshape31.
  cbn [pos map]. destruct ti as [a b c], tj as [a' b' c'].
  unfold vsub. cbn [vx vy vz].
  repeat (f_equal; try ring).
Qed.

Lemma stacked_rhs_naive_opp combs :
  concat (map b_block_naive combs) = map Qcopp (concat (map b_block combs)).
Proof.
  induction combs as [| c cs IH]; [ reflexivity | ].
  cbn [map concat]. now rewrite map_app, IH, b_block_naive_opp.
Qed.

Lemma vopp_vzero : vopp vzero = vzero.
Proof. array_ring. Qed.

Lemma vopp_step x c u : vadd (vscale (- x) c) (vopp u) = vopp (vadd (vscale x c) u).
Proof. array_ring. Qed.

Lemma lincomb_opp X b : lincomb X (map Qcopp b) = vopp (lincomb X b).
Proof.
  revert b. induction X as [| c X IH]; intros [| x b]; cbn [map lincomb];
    rewrite ?vopp_vzero; try reflexivity.
  now rewrite IH, vopp_step.
Qed.

Lemma solved_ft_naive_opp self : solved_ft_naive self = vopp (solved_ft self).
Proof.
  unfold solved_ft_naive, solved_ft.
  now rewrite stacked_rhs_naive_opp, lincomb_opp.
Qed.

Lemma Qc_double_zero (a : Qc) : a + a = 0 -> a = 0.
Proof.
  intros H.
  assert (H2 : (1 + 1) * a = 0) by (rewrite <- H; ring).
  apply Qcmult_integral in H2 as [H2 | H2]; [ exfalso | exact H2 ].
  discriminate H2.
Qed.

Lemma vopp_fixed v : vopp v = v -> v = vzero.
Proof.
  intros H.
  assert (Hx := f_equal vx H). assert (Hy := f_equal vy H).
  assert (Hz := f_equal vz H).
  destruct v as [x y z]. cbn [vopp vx vy vz] in Hx, Hy, Hz.
  unfold vzero. f_equal; apply Qc_double_zero.
  - rewrite <- Hx at 1. ring.
  - rewrite <- Hy at 1. ring.
  - rewrite <- Hz at 1. ring.
Qed.


End Instances.

(** ** Least squares and minimum norm *)

Section MinimumNorm.

Variable A : list vec3.

Lemma gram_null_rows w :
  mv (gram A) w = vzero -> Forall (fun r => vdot r w = 0) A.
Proof.
  intros H.
  assert (H0 : mmul (M3 w vzero vzero) (gram A) = mzero).
  { unfold mmul, vm. cbn [row0 row1 row2].
    rewrite (gram_sym A : mtrans (gram A) = gram A), H, mv_vzero.
    reflexivity. }
  apply gram_annihilated in H0.
  eapply Forall_impl; [ | exact H0 ].
  intros r Hr. cbv beta in Hr. apply (f_equal vx) in Hr.
  unfold mv in Hr. cbn [row0 vx vzero] in Hr.
  now rewrite vdot_comm.
Qed.

Lemma norm_split u y :
  vdot y y
  = vdot u u + (1 + 1) * vdot u (vsub y u) + vdot (vsub y u) (vsub y u).
Proof. array_ring. Qed.

Lemma Qc_le_add_nonneg (a c : Qc) : 0 <= c -> a <= a + c.
Proof.
  intros H. rewrite <- (Qcplus_0_r a) at 1.
  apply Qcplus_le_compat; [ apply Qcle_refl | exact H ].
Qed.

(** Among the solutions [y] of the normal equations, [pinv(A) b] has the
    least norm. *)
Lemma pinv_least_norm b y :
  mv (gram A) y = lincomb A b ->
  vdot (lincomb (pinv A) b) (lincomb (pinv A) b) <= vdot y y.
Proof.
  intros Hy. set (u := lincomb (pinv A) b).
  assert (Hw : Forall (fun r => vdot r (vsub y u) = 0) A).
  { apply gram_null_rows.
    replace (mv (gram A) (vsub y u))
      with (vsub (mv (gram A) y) (mv (gram A) u)) by array_ring.
    unfold u. rewrite pinv_normal_equations, Hy. apply vsub_self. }
  assert (Hu : vdot u (vsub y u) = 0) by exact (pinv_min_norm A b _ Hw).
  rewrite (norm_split u y), Hu.
  replace (vdot u u + (1 + 1) * 0 + vdot (vsub y u) (vsub y u))
    with (vdot u u + vdot (vsub y u) (vsub y u)) by ring.
  apply Qc_le_add_nonneg, vdot_self_nonneg.
Qed.

End MinimumNorm.

(** ** Uniqueness of the pseudoinverse *)

Lemma map_fixed_inv (f : vec3 -> vec3) (l : list vec3) :
  map f l = l -> Forall (fun r => f r = r) l.
Proof.
  induction l as [| a l IH]; cbn [map]; intros H; constructor.
  - exact (f_equal (fun l' => hd a l') H).
  - apply IH. exact (f_equal (@tl vec3) H).
Qed.

Lemma mv_colrow X A y : mv (colrow X A) y = lincomb X (rows_dot A y).
Proof.
  unfold rows_dot. revert A.
  induction X as [| x X IH]; intros [| r A]; cbn [colrow map lincomb];
    rewrite ?mv_zero; try reflexivity.
  rewrite mv_madd, IH, mv_outer. reflexivity.
Qed.

Section Uniqueness.

Variables A X : list vec3.
Hypothesis HMP : MoorePenrose A X.

Let G := gram A.
Let P := pinv_sym G.
Let S := colrow X A.
Let W := gram X.

Lemma penrose_rows_fixed : Forall (fun r => mv S r = r) A.
Proof.
  destruct HMP as [_ Haxa _ _ HS].
  apply map_fixed_inv in Haxa.
  eapply Forall_impl; [ | exact Haxa ].
  intros r Hr. cbv beta in Hr. unfold vm in Hr. unfold msym in HS.
  rewrite HS in Hr. exact Hr.
Qed.

Lemma penrose_range_fixed y : mv S (mv G y) = mv G y.
Proof.
  unfold G. rewrite <- lincomb_rows_dot.
  apply lincomb_fixed, penrose_rows_fixed.
Qed.

(** Every column of [X] is [X X^T] applied to the matching row of [A]. *)
Lemma penrose_column_gram j : nth j X vzero = mv W (nth j A vzero).
Proof.
  destruct HMP as [Hlen _ Hxax Hsym _].
  destruct (le_lt_dec (length X) j) as [Hj | Hj].
  - rewrite !nth_overflow by lia. now rewrite mv_vzero.
  - apply map_fixed_inv in Hxax. rewrite Forall_forall in Hxax.
    rewrite <- (Hxax (nth j X vzero)) by now apply nth_In.
    rewrite mv_colrow. unfold W. rewrite <- lincomb_rows_dot.
    f_equal. unfold rows_dot.
    apply (nth_ext _ _ (vdot vzero (nth j X vzero)) (vdot vzero (nth j A vzero))).
    + now rewrite !length_map.
    + intros i _.
      rewrite (map_nth (fun r => vdot r (nth j X vzero)) A vzero i).
      rewrite (map_nth (fun r => vdot r (nth j A vzero)) X vzero i).
      rewrite Hsym. apply vdot_comm.
Qed.

Lemma penrose_columns_gram : X = map (mv W) A.
Proof.
  destruct HMP as [Hlen _ _ _ _].
  apply (nth_ext _ _ vzero (mv W vzero)).
  - now rewrite length_map.
  - intros j _. rewrite (map_nth (mv W) A vzero j). apply penrose_column_gram.
Qed.

Lemma penrose_projector : S = mmul W G.
Proof.
  unfold S. rewrite penrose_columns_gram at 1. apply colrow_map_mv.
Qed.

(** A Moore-Penrose inverse of [A] is [pinv A]. *)
Lemma moore_penrose_unique : X = pinv A.
Proof.
  rewrite penrose_columns_gram. unfold pinv. fold G P.
  apply map_ext_in. intros r Hr.
  destruct (pinv_gram_spec A) as [Hs Hc Hg Hp]. fold G P in Hs, Hc, Hg, Hp.
  assert (Hfix := rows_fixed A). rewrite Forall_forall in Hfix.
  specialize (Hfix r Hr). fold G P in Hfix.
  rewrite <- Hfix at 1.
  rewrite mv_mmul, <- (mv_mmul W G), <- penrose_projector.
  assert (HP : mv P r = mv G (mv P (mv P r))).
  { rewrite <- !mv_mmul, <- Hc, mmul_assoc, Hp. reflexivity. }
  rewrite HP. apply penrose_range_fixed.
Qed.

End Uniqueness.

(** ** Evaluating the program on rationals *)

Lemma vec3_ext u v : vx u = vx v -> vy u = vy v -> vz u = vz v -> u = v.
Proof. destruct u, v. cbn. congruence. Qed.

Lemma mat3_ext m n :
  row0 m = row0 n -> row1 m = row1 n -> row2 m = row2 n -> m = n.
Proof. destruct m, n. cbn. congruence. Qed.

(** Closed equalities and disequalities of rationals, by evaluation. *)
Ltac qc_eq := apply Qc_is_canon; vm_compute; reflexivity.
Ltac qc_neq :=
  let H := fresh in
  intro H; apply (f_equal this) in H; vm_compute in H; discriminate H.
Ltac array_eq :=
  repeat match goal with
  | |- @eq mat3 _ _ => apply mat3_ext
  | |- @eq vec3 _ _ => apply vec3_ext
  | |- @eq Qc _ _ => qc_eq
  end.

Section AlignedRotations.

Lemma aligned_are_rotations : Forall is_rotation aligned_rotations.
Proof.
  unfold aligned_rotations.
  repeat constructor; array_eq.
Qed.

Lemma aligned_axes :
  axis_of Rx90 aligned_axis1 /\
  axis_of (mmul Rx90 Rz90) aligned_axis2 /\
  axis_of (mmul Rx90 Rz180) aligned_axis3.
Proof.
  unfold axis_of. repeat split; try array_eq.
  - intros H. apply (f_equal vx) in H. revert H. cbn [vx aligned_axis1 vzero]. qc_neq.
  - intros H. apply (f_equal vx) in H. revert H. cbn [vx aligned_axis2 vzero]. qc_neq.
  - intros H. apply (f_equal vy) in H. revert H. cbn [vy aligned_axis3 vzero]. qc_neq.
Qed.

Lemma aligned_axes_not_parallel :
  ~ parallel aligned_axis1 aligned_axis2 /\
  ~ parallel aligned_axis1 aligned_axis3 /\
  ~ parallel aligned_axis2 aligned_axis3.
Proof.
  unfold parallel.
  repeat split; intros H; apply (f_equal vy) in H; revert H; qc_neq.
Qed.

(** The three rotations send the z axis to the same direction, so the
    stacked [A] has the z axis in its null space. *)
Lemma aligned_common_image :
  Forall (fun R => mv R (V3 0 0 1) = V3 0 (- (1)) 0) aligned_rotations.
Proof.
  unfold aligned_rotations. repeat constructor; array_eq.
Qed.

(** What the call returns on the aligned poses: the component of the tip
    offset along the common direction is lost. *)
Lemma aligned_result :
  snd (calibrate aligned_poses)
  = inr (V3 (qc 1 10) (qc 1 20) 0, V3 (qc 1 2) (qc 3 4) (qc 7 10)).
Proof.
  unfold calibrate. rewrite call_returns.
  - cbn [snd]. do 2 f_equal; array_eq.
  - discriminate.
  - discriminate.
Qed.

Lemma aligned_not_recovered :
  snd (calibrate aligned_poses) <> inr (Ft0, Bt0).
Proof.
  rewrite aligned_result. intros H.
  apply (f_equal (fun r => match r with
                           | inr (f, _) => this (vz f)
                           | inl _ => 0%Q
                           end)) in H.
  vm_compute in H. discriminate H.
Qed.

End AlignedRotations.

(** ** The claims of the specification *)

(** The entries of [lincomb X b], written with the list functions of the
    standard library: entry by entry, the sum over the columns [c] of [X]
    and the entries [x] of [b] at the same position of [c * x]. *)
Lemma lincomb_entries (X : list vec3) (b : list Qc) :
  vx (lincomb X b)
  = fold_right Qcplus 0 (map (fun cb => vx (fst cb) * snd cb) (combine X b)) /\
  vy (lincomb X b)
  = fold_right Qcplus 0 (map (fun cb => vy (fst cb) * snd cb) (combine X b)) /\
  vz (lincomb X b)
  = fold_right Qcplus 0 (map (fun cb => vz (fst cb) * snd cb) (combine X b)).
Proof.
  revert b. induction X as [| c X IH]; intros [| x b];
    try (now repeat split).
  destruct (IH b) as (Hx & Hy & Hz).
  cbn [lincomb combine map fold_right fst snd vadd vscale vx vy vz].
  rewrite <- Hx, <- Hy, <- Hz. repeat split; ring.
Qed.

(** The entries of [vsum], likewise: the sums of the entries. *)
Lemma vsum_entries (l : list vec3) :
  vx (vsum l) = fold_right Qcplus 0 (map vx l) /\
  vy (vsum l) = fold_right Qcplus 0 (map vy l) /\
  vz (vsum l) = fold_right Qcplus 0 (map vz l).
Proof.
  induction l as [| u l (Hx & Hy & Hz)]; [ now repeat split | ].
  unfold vsum in *. cbn [fold_right map vadd vx vy vz].
  now rewrite Hx, Hy, Hz.
Qed.

(** The stacked [A] has as many rows as the stacked [b] has entries. *)
Lemma stacked_lengths (combs : list (Transform * Transform)) :
  length (concat (map A_block combs)) = length (concat (map b_block combs)).
Proof.
  induction combs as [| [bfi bfj] l IH]; [ reflexivity | ].
  cbn [map concat]. rewrite !length_app, IH. reflexivity.
Qed.

(** C1: for at least two poses, [calibrate] returns [(Ft, Bt)], and leaves
    both on the instance, where: [A] stacks, pair by pair in the order of
    the enumeration, the three rows of [Ri - Rj], and [b] the three entries
    of [tj - ti]; [X] is the Moore-Penrose pseudoinverse of [A], the one
    array that satisfies the four Penrose equations with [A]; [Ft] is the
    product of [X] and [b], each entry the sum over the columns of [X] of
    the column's entry times the entry of [b] at the same position; and
    [Bt] is the arithmetic mean, over every pose of the input in its
    order, of [Ri Ft + ti], each entry the sum of that entry of the points
    divided by the number of poses.  The products, sums and the mean are
    written out in the arithmetic of the rationals and the list functions
    of the standard library. *)
Theorem calibrate_returns_pinv_solution_and_mean (poses : list Transform) :
  (2 <= length poses)%nat ->
  exists A b X Ft Bt,
    (let sub (u v : vec3) := V3 (vx u - vx v) (vy u - vy v) (vz u - vz v) in
     A = concat (map (fun c =>
                        [sub (row0 (orient (fst c))) (row0 (orient (snd c)));
                         sub (row1 (orient (fst c))) (row1 (orient (snd c)));
                         sub (row2 (orient (fst c))) (row2 (orient (snd c)))])
                     (combinations2 poses)) /\
     b = concat (map (fun c =>
                        [vx (pos (snd c)) - vx (pos (fst c));
                         vy (pos (snd c)) - vy (pos (fst c));
                         vz (pos (snd c)) - vz (pos (fst c))])
                     (combinations2 poses))) /\
    MoorePenrose A X /\
    (forall X', MoorePenrose A X' -> X' = X) /\
    length X = length b /\
    (let dot (f : vec3 -> Qc) :=
       fold_right Qcplus 0 (map (fun cb => f (fst cb) * snd cb) (combine X b)) in
     vx Ft = dot vx /\ vy Ft = dot vy /\ vz Ft = dot vz) /\
    (let n := Q2Qc (inject_Z (Z.of_nat (length poses))) in
     let point (row : mat3 -> vec3) (f : vec3 -> Qc) (p : Transform) :=
       vx (row (orient p)) * vx Ft + vy (row (orient p)) * vy Ft
       + vz (row (orient p)) * vz Ft + f (pos p) in
     let mean (g : Transform -> Qc) := fold_right Qcplus 0 (map g poses) / n in
     vx Bt = mean (point row0 vx) /\
     vy Bt = mean (point row1 vy) /\
     vz Bt = mean (point row2 vz)) /\
    snd (calibrate poses) = inr (Ft, Bt) /\
    ft (fst (calibrate poses)) = Some Ft /\
    bt (fst (calibrate poses)) = Some Bt.
Proof.
  intros Hn. destruct (init_nonempty poses Hn) as [Hc Hb].
  cbn [__init__ _combs _bfs] in Hc, Hb.
  exists (concat (map A_block (combinations2 poses))),
         (concat (map b_block (combinations2 poses))),
         (pinv (concat (map A_block (combinations2 poses)))),
         (solved_ft (__init__ poses)), (averaged_bt (__init__ poses)).
  unfold calibrate. rewrite call_returns by assumption.
  cbn [fst snd ft bt].
  split.
  { cbv zeta. split; f_equal; apply map_ext; intros [bfi bfj]; reflexivity. }
  split; [ apply pinv_MoorePenrose | ].
  split; [ intros X' HX'; now apply moore_penrose_unique | ].
  split; [ unfold pinv; rewrite length_map; apply stacked_lengths | ].
  split; [ apply lincomb_entries | ].
  split; [ | now repeat split ].
  cbv zeta. unfold averaged_bt. cbn [__init__ _bfs vdiv vx vy vz].
  destruct (vsum_entries
              (map (fun bfi => transform_apply bfi (solved_ft (__init__ poses)))
                   poses)) as (Hx & Hy & Hz).
  rewrite Hx, Hy, Hz, !map_map. unfold Qc_of_nat.
  repeat split; do 2 f_equal; apply map_ext; intros p; reflexivity.
Qed.

Lemma calibrate_returns_pinv_solution_and_mean_witness :
  (2 <= length spread_poses)%nat /\
  exists A b X Ft Bt,
    (let sub (u v : vec3) := V3 (vx u - vx v) (vy u - vy v) (vz u - vz v) in
     A = concat (map (fun c =>
                        [sub (row0 (orient (fst c))) (row0 (orient (snd c)));
                         sub (row1 (orient (fst c))) (row1 (orient (snd c)));
                         sub (row2 (orient (fst c))) (row2 (orient (snd c)))])
                     (combinations2 spread_poses)) /\
     b = concat (map (fun c =>
                        [vx (pos (snd c)) - vx (pos (fst c));
                         vy (pos (snd c)) - vy (pos (fst c));
                         vz (pos (snd c)) - vz (pos (fst c))])
                     (combinations2 spread_poses))) /\
    MoorePenrose A X /\
    (forall X', MoorePenrose A X' -> X' = X) /\
    length X = length b /\
    (let dot (f : vec3 -> Qc) :=
       fold_right Qcplus 0 (map (fun cb => f (fst cb) * snd cb) (combine X b)) in
     vx Ft = dot vx /\ vy Ft = dot vy /\ vz Ft = dot vz) /\
    (let n := Q2Qc (inject_Z (Z.of_nat (length spread_poses))) in
     let point (row : mat3 -> vec3) (f : vec3 -> Qc) (p : Transform) :=
       vx (row (orient p)) * vx Ft + vy (row (orient p)) * vy Ft
       + vz (row (orient p)) * vz Ft + f (pos p) in
     let mean (g : Transform -> Qc) :=
       fold_right Qcplus 0 (map g spread_poses) / n in
     vx Bt = mean (point row0 vx) /\
     vy Bt = mean (point row1 vy) /\
     vz Bt = mean (point row2 vz)) /\
    snd (calibrate spread_poses) = inr (Ft, Bt) /\
    ft (fst (calibrate spread_poses)) = Some Ft /\
    bt (fst (calibrate spread_poses)) = Some Bt.
Proof.
  assert (H : (2 <= length spread_poses)%nat)
    by (cbn [spread_poses spread_rotations map length]; lia).
  split; [ exact H | ].
  exact (calibrate_returns_pinv_solution_and_mean spread_poses H).
Defined.



(** C3: [calibrate] fails exactly when there are fewer than two poses; the
    failure is the [ValueError] of stacking no blocks (the specification's
    InsufficientDataError), and it leaves the instance as constructed, with
    neither [ft] nor [bt].  With two poses or more it returns a result
    whatever the rank of [A]: the result solves the normal equations, is
    orthogonal to the null space of [A], and has the least norm among the
    solutions of the normal equations. *)
Theorem calibrate_fails_iff_fewer_than_two (poses : list Transform) :
  (forall e, snd (calibrate poses) = inl e
             <-> e = ValueError /\ (length poses < 2)%nat) /\
  ((length poses < 2)%nat ->
   calibrate poses = (__init__ poses, inl ValueError) /\
   ft (fst (calibrate poses)) = None /\ bt (fst (calibrate poses)) = None) /\
  ((2 <= length poses)%nat ->
   exists Ft Bt,
     snd (calibrate poses) = inr (Ft, Bt) /\
     let A := concat (map A_block (combinations2 poses)) in
     let b := concat (map b_block (combinations2 poses)) in
     mv (gram A) Ft = lincomb A b /\
     (forall v, Forall (fun r => vdot r v = 0) A -> vdot Ft v = 0) /\
     (forall y, mv (gram A) y = lincomb A b -> vdot Ft Ft <= vdot y y)).
Proof.
  assert (Hsmall : (length poses < 2)%nat ->
                   calibrate poses = (__init__ poses, inl ValueError)).
  { intros H. unfold calibrate. apply call_no_pairs.
    cbn [__init__ _combs]. now apply combinations2_nil_iff. }
  assert (Hbig : (2 <= length poses)%nat ->
                 snd (calibrate poses)
                 = inr (solved_ft (__init__ poses), averaged_bt (__init__ poses))).
  { intros H. destruct (init_nonempty poses H) as [Hc Hb].
    unfold calibrate. now rewrite call_returns. }
  split; [ | split ].
  - intros e. destruct (le_lt_dec 2 (length poses)) as [H | H].
    + rewrite (Hbig H). split; [ discriminate | intros [_ H']; lia ].
    + rewrite (Hsmall H). cbn [snd]. split.
      * intros E. injection E as <-. now split.
      * now intros [-> _].
  - intros H. rewrite (Hsmall H). now split.
  - intros H. exists (solved_ft (__init__ poses)), (averaged_bt (__init__ poses)).
    split; [ exact (Hbig H) | ].
    cbv zeta. unfold solved_ft. cbn [__init__ _combs].
    split; [ apply pinv_normal_equations | ].
    split; [ intros v Hv; now apply pinv_min_norm | ].
    intros y Hy. now apply pinv_least_norm.
Qed.

(** C5: for [n >= 2] poses the pairs the constructor enumerates are the
    pairs of poses at the index pairs [(i, j)], [i < j < n], each once, in
    lexicographic order; there are [C(n,2) = n (n - 1) / 2] of them, and the
    stacked [A] has [3 C(n,2)] rows (each a row of three entries) and [b]
    has [3 C(n,2)] entries. *)
Theorem pairs_enumerated_in_order (poses : list Transform) (d : Transform) :
  (2 <= length poses)%nat ->
  let n := length poses in
  _combs (__init__ poses)
  = map (fun p => (nth (fst p) poses d, nth (snd p) poses d)) (index_pairs n) /\
  (forall i j, In (i, j) (index_pairs n) <-> (i < j < n)%nat) /\
  StronglySorted lex_lt (index_pairs n) /\
  length (_combs (__init__ poses)) = binom n 2 /\
  (2 * binom n 2 = n * (n - 1))%nat /\
  exists A b,
    stack_A (_combs (__init__ poses)) = inr A /\
    stack_b (_combs (__init__ poses)) = inr b /\
    length A = (3 * binom n 2)%nat /\
    Forall (fun r => length (reshape31 r) = 3%nat) A /\
    length b = (3 * binom n 2)%nat.
Proof.
  intros Hn n. destruct (init_nonempty poses Hn) as [Hc Hb].
  split; [ apply combinations2_index_pairs | ].
  split; [ intros i j; apply In_index_pairs | ].
  split; [ apply index_pairs_sorted | ].
  split; [ apply combinations2_length | ].
  split; [ apply binom_2_double | ].
  exists (concat (map A_block (_combs (__init__ poses)))),
         (concat (map b_block (_combs (__init__ poses)))).
  unfold stack_A, stack_b.
  rewrite !np_vstack_nonempty by now apply map_nonempty.
  rewrite length_concat_A_blocks, length_concat_b_blocks.
  cbn [__init__ _combs]. rewrite combinations2_length.
  repeat split. apply Forall_forall. intros r _. reflexivity.
Qed.

Lemma pairs_enumerated_in_order_witness :
  (2 <= length spread_poses)%nat /\
  let poses := spread_poses in
  let d := pose_of Bt0 Ft0 mident in
  let n := length poses in
  _combs (__init__ poses)
  = map (fun p => (nth (fst p) poses d, nth (snd p) poses d)) (index_pairs n) /\
  (forall i j, In (i, j) (index_pairs n) <-> (i < j < n)%nat) /\
  StronglySorted lex_lt (index_pairs n) /\
  length (_combs (__init__ poses)) = binom n 2 /\
  (2 * binom n 2 = n * (n - 1))%nat /\
  exists A b,
    stack_A (_combs (__init__ poses)) = inr A /\
    stack_b (_combs (__init__ poses)) = inr b /\
    length A = (3 * binom n 2)%nat /\
    Forall (fun r => length (reshape31 r) = 3%nat) A /\
    length b = (3 * binom n 2)%nat.
Proof.
  assert (H : (2 <= length spread_poses)%nat)
    by (cbn [spread_poses spread_rotations map length]; lia).
  split; [ exact H | ].
  exact (pairs_enumerated_in_order spread_poses (pose_of Bt0 Ft0 mident) H).
Defined.

(** The three pairs of three poses, in the order of [itertools]. *)
Example index_pairs_3 : index_pairs 3 = [(0, 1); (0, 2); (1, 2)]%nat.
Proof. reflexivity. Qed.

Example index_pairs_4 :
  index_pairs 4 = [(0, 1); (0, 2); (0, 3); (1, 2); (1, 3); (2, 3)]%nat.
Proof. reflexivity. Qed.

Example combinations2_abc :
  combinations2 [1; 2; 3]%nat = [(1, 2); (1, 3); (2, 3)]%nat.
Proof. reflexivity. Qed.

(** C4, as stated, fails: the three aligned rotations are rotations about
    pairwise non-parallel axes, yet on the noiseless poses built from them
    the call returns a tip offset without its z component, and a pivot that
    is off accordingly. *)
Lemma exact_recovery_fails_on_aligned_rotations :
  (3 <= length aligned_rotations)%nat /\
  Forall is_rotation aligned_rotations /\
  (axis_of (nth 0 aligned_rotations mident) aligned_axis1 /\
   axis_of (nth 1 aligned_rotations mident) aligned_axis2 /\
   axis_of (nth 2 aligned_rotations mident) aligned_axis3) /\
  (~ parallel aligned_axis1 aligned_axis2 /\
   ~ parallel aligned_axis1 aligned_axis3 /\
   ~ parallel aligned_axis2 aligned_axis3) /\
  snd (calibrate (map (pose_of Bt0 Ft0) aligned_rotations))
  = inr (V3 (qc 1 10) (qc 1 20) 0, V3 (qc 1 2) (qc 3 4) (qc 7 10)) /\
  snd (calibrate (map (pose_of Bt0 Ft0) aligned_rotations)) <> inr (Ft0, Bt0) /\
  ~ exact_recovery_as_stated.
Proof.
  split; [ cbn [aligned_rotations length]; lia | ].
  split; [ exact aligned_are_rotations | ].
  split; [ exact aligned_axes | ].
  split; [ exact aligned_axes_not_parallel | ].
  split; [ exact aligned_result | ].
  split; [ exact aligned_not_recovered | ].
  intros Hclaim. apply aligned_not_recovered.
  apply (Hclaim Bt0 Ft0 aligned_rotations).
  - cbn [aligned_rotations length]. lia.
  - exact aligned_are_rotations.
  - exists 0%nat, 1%nat, aligned_axis1, aligned_axis2.
    destruct aligned_axes as [H1 [H2 _]].
    destruct aligned_axes_not_parallel as [Hp _].
    split; [ cbn [aligned_rotations length]; lia | ].
    split; [ cbn [aligned_rotations length]; lia | ].
    split; [ exact H1 | ]. split; [ exact H2 | exact Hp ].
Qed.

(** C4, amended: noiseless poses among which two changes of orientation
    (from pose [i] to [j], and from [k] to [l]) have no common fixed
    direction are calibrated exactly: [calibrate] returns the ground truth
    [Ft] and [Bt]. *)
Theorem exact_recovery_two_change_axes
        (Bt Ft : vec3) (Rs : list mat3) (i j k l : nat) :
  (i < length Rs)%nat -> (j < length Rs)%nat ->
  (k < length Rs)%nat -> (l < length Rs)%nat ->
  (forall v,
      mv (nth i Rs mident) v = mv (nth j Rs mident) v ->
      mv (nth k Rs mident) v = mv (nth l Rs mident) v ->
      v = vzero) ->
  snd (calibrate (map (pose_of Bt Ft) Rs)) = inr (Ft, Bt).
Proof.
  intros Hi Hj Hk Hl Haxes.
  rewrite (recovery_trivial_null_space Bt Ft Rs); [ reflexivity | ].
  intros w Hw. apply Haxes; now apply Hw.
Qed.

Lemma Qc_eq_opp_zero (a : Qc) : a = - a -> a = 0.
Proof.
  intros H. apply Qc_double_zero. rewrite H at 1. ring.
Qed.

(** The changes from the identity to the quarter turns about z and about
    x have no common fixed direction. *)
Lemma spread_no_common_direction v :
  mv (nth 0 spread_rotations mident) v = mv (nth 1 spread_rotations mident) v ->
  mv (nth 0 spread_rotations mident) v = mv (nth 2 spread_rotations mident) v ->
  v = vzero.
Proof.
  cbn [nth spread_rotations]. intros H1 H2.
  assert (H1x := f_equal vx H1). assert (H1y := f_equal vy H1).
  assert (H2y := f_equal vy H2).
  destruct v as [x y z].
  unfold mv, mident, Rz90, Rx90, vdot in H1x, H1y, H2y.
  cbn [row0 row1 row2 vx vy vz] in H1x, H1y, H2y.
  assert (E1 : x = - y)
    by (replace x with (1 * x + 0 * y + 0 * z) by ring; rewrite H1x; ring).
  assert (E2 : y = x)
    by (replace y with (0 * x + 1 * y + 0 * z) at 1 by ring; rewrite H1y; ring).
  assert (E3 : y = - z)
    by (replace y with (0 * x + 1 * y + 0 * z) by ring; rewrite H2y; ring).
  assert (Hx : x = 0) by (apply Qc_eq_opp_zero; now rewrite E2 in E1).
  assert (Hy : y = 0) by now rewrite E2.
  assert (Hz : z = 0).
  { rewrite Hy in E3. rewrite <- (Qcopp_involutive z), <- E3. ring. }
  unfold vzero. now rewrite Hx, Hy, Hz.
Qed.

Lemma exact_recovery_two_change_axes_witness :
  ((0 < length spread_rotations)%nat /\ (1 < length spread_rotations)%nat /\
   (2 < length spread_rotations)%nat) /\
  (forall v,
      mv (nth 0 spread_rotations mident) v = mv (nth 1 spread_rotations mident) v ->
      mv (nth 0 spread_rotations mident) v = mv (nth 2 spread_rotations mident) v ->
      v = vzero) /\
  snd (calibrate (map (pose_of Bt0 Ft0) spread_rotations)) = inr (Ft0, Bt0).
Proof.
  assert (H0 : (0 < length spread_rotations)%nat)
    by (cbn [spread_rotations length]; lia).
  assert (H1 : (1 < length spread_rotations)%nat)
    by (cbn [spread_rotations length]; lia).
  assert (H2 : (2 < length spread_rotations)%nat)
    by (cbn [spread_rotations length]; lia).
  split; [ now repeat split | ].
  split; [ exact spread_no_common_direction | ].
  exact (exact_recovery_two_change_axes Bt0 Ft0 spread_rotations 0 1 0 2
           H0 H1 H0 H2 spread_no_common_direction).
Defined.

(** C6: on noiseless poses whose system is not degenerate (two changes of
    orientation without a common fixed direction, and a tip offset that is
    not zero), the specified convention ([tj - ti] against [Ri - Rj])
    returns the ground truth [Ft], while the naive convention ([ti - tj])
    returns [- Ft], which is not [Ft]: the two conventions differ. *)
Theorem naive_convention_flips_sign
        (Bt Ft : vec3) (Rs : list mat3) (i j k l : nat) :
  (i < length Rs)%nat -> (j < length Rs)%nat ->
  (k < length Rs)%nat -> (l < length Rs)%nat ->
  (forall v,
      mv (nth i Rs mident) v = mv (nth j Rs mident) v ->
      mv (nth k Rs mident) v = mv (nth l Rs mident) v ->
      v = vzero) ->
  Ft <> vzero ->
  snd (calibrate (map (pose_of Bt Ft) Rs)) = inr (Ft, Bt) /\
  (exists Bt', snd (calibrate_naive (map (pose_of Bt Ft) Rs)) = inr (vopp Ft, Bt')) /\
  vopp Ft <> Ft /\
  snd (calibrate_naive (map (pose_of Bt Ft) Rs))
  <> snd (calibrate (map (pose_of Bt Ft) Rs)).
Proof.
  intros Hi Hj Hk Hl Haxes HFt.
  set (ps := map (pose_of Bt Ft) Rs).
  assert (Hfull := recovery_trivial_null_space Bt Ft Rs
                     (fun w Hw => Haxes w (Hw i j Hi Hj) (Hw k l Hk Hl))).
  fold ps in Hfull.
  assert (Hlen : (2 <= length ps)%nat).
  { destruct (le_lt_dec 2 (length ps)) as [H | H]; [ exact H | exfalso ].
    unfold calibrate in Hfull. rewrite call_no_pairs in Hfull.
    - apply (f_equal snd) in Hfull. discriminate Hfull.
    - cbn [__init__ _combs]. now apply combinations2_nil_iff. }
  destruct (init_nonempty ps Hlen) as [Hc Hb].
  assert (Hsolved : solved_ft (__init__ ps) = Ft).
  { unfold calibrate in Hfull. rewrite call_returns in Hfull by assumption.
    apply (f_equal snd) in Hfull. cbn [snd] in Hfull. congruence. }
  assert (Hnaive : snd (calibrate_naive ps)
                   = inr (vopp Ft, averaged_bt_naive (__init__ ps))).
  { unfold calibrate_naive. rewrite call_naive_returns by assumption.
    cbn [snd]. now rewrite solved_ft_naive_opp, Hsolved. }
  assert (Hneq : vopp Ft <> Ft).
  { intros H. now apply HFt, vopp_fixed. }
  split; [ now rewrite Hfull | ].
  split; [ now exists (averaged_bt_naive (__init__ ps)) | ].
  split; [ exact Hneq | ].
  rewrite Hnaive, Hfull. cbn [snd]. congruence.
Qed.

Lemma Ft0_nonzero : Ft0 <> vzero.
Proof.
  intros H. apply (f_equal vx) in H. revert H. cbn [vx Ft0 vzero]. qc_neq.
Qed.

Lemma naive_convention_flips_sign_witness :
  ((0 < length spread_rotations)%nat /\ (1 < length spread_rotations)%nat /\
   (2 < length spread_rotations)%nat) /\
  (forall v,
      mv (nth 0 spread_rotations mident) v = mv (nth 1 spread_rotations mident) v ->
      mv (nth 0 spread_rotations mident) v = mv (nth 2 spread_rotations mident) v ->
      v = vzero) /\
  Ft0 <> vzero /\
  snd (calibrate (map (pose_of Bt0 Ft0) spread_rotations)) = inr (Ft0, Bt0) /\
  (exists Bt', snd (calibrate_naive (map (pose_of Bt0 Ft0) spread_rotations))
               = inr (vopp Ft0, Bt')) /\
  vopp Ft0 <> Ft0 /\
  snd (calibrate_naive (map (pose_of Bt0 Ft0) spread_rotations))
  <> snd (calibrate (map (pose_of Bt0 Ft0) spread_rotations)).
Proof.
  assert (H0 : (0 < length spread_rotations)%nat)
    by (cbn [spread_rotations length]; lia).
  assert (H1 : (1 < length spread_rotations)%nat)
    by (cbn [spread_rotations length]; lia).
  assert (H2 : (2 < length spread_rotations)%nat)
    by (cbn [spread_rotations length]; lia).
  split; [ now repeat split | ].
  split; [ exact spread_no_common_direction | ].
  split; [ exact Ft0_nonzero | ].
  exact (naive_convention_flips_sign Bt0 Ft0 spread_rotations 0 1 0 2
           H0 H1 H0 H2 spread_no_common_direction Ft0_nonzero).
Defined.

(** The naive convention on the specification's scenario: the tip offset
    comes back negated. *)
Example naive_on_spread_poses :
  exists Bt', snd (calibrate_naive spread_poses)
              = inr (V3 (- qc 1 10) (- qc 1 20) (- qc 3 20), Bt').
Proof.
  eexists. unfold calibrate_naive. rewrite call_naive_returns by discriminate.
  cbn [snd]. do 2 f_equal. array_eq.
Qed.

(** The instance after any number of calls: as constructed when there are
    fewer than two poses, and otherwise as constructed or with both
    attributes set. *)
Lemma calls_shape k poses :
  calls k (__init__ poses) = __init__ poses \/
  ((2 <= length poses)%nat /\
   calls k (__init__ poses)
   = mkPivotCalibrator poses (combinations2 poses)
       (Some (solved_ft (__init__ poses)))
       (Some (averaged_bt (__init__ poses)))).
Proof.
  destruct (le_lt_dec 2 (length poses)) as [H | H].
  - destruct k as [| k]; [ now left | right ].
    split; [ exact H | ].
    cbn [calls]. set (self := calls k (__init__ poses)).
    assert (Hb : _bfs self = poses) by apply calls_bfs.
    assert (Hc : _combs self = combinations2 poses) by apply calls_combs.
    destruct (init_nonempty poses H) as [Hc0 Hb0].
    cbn [__init__ _combs _bfs] in Hc0, Hb0.
    rewrite call_returns by congruence. cbn [fst].
    unfold averaged_bt, solved_ft. rewrite Hb, Hc. reflexivity.
  - left. now apply calls_insufficient.
Qed.




(** C8: construction stores the sequence it is given; no call changes the
    sequence or the pairs held by the instance, whatever its outcome, so
    after any number of calls they are the input and its pairs; a call
    changes at most the attributes [ft] and [bt]. *)
Theorem input_is_not_modified (poses : list Transform) (k : nat) :
  _bfs (__init__ poses) = poses /\
  _bfs (calls k (__init__ poses)) = poses /\
  _combs (calls k (__init__ poses)) = combinations2 poses /\
  forall self, exists f b,
      fst (__call__ self) = mkPivotCalibrator (_bfs self) (_combs self) f b.
Proof.
  split; [ reflexivity | ].
  split; [ apply calls_bfs | ].
  split; [ apply calls_combs | ].
  apply call_frame.
Qed.

(** C9: the outcome of a call is a function of the poses alone: every
    invocation of an instance, however many came before, has the outcome of
    the first, and equal inputs give equal outcomes. *)
Theorem call_is_deterministic (poses : list Transform) (k : nat) :
  snd (__call__ (calls k (__init__ poses))) = snd (calibrate poses) /\
  snd (__call__ (fst (calibrate poses))) = snd (calibrate poses) /\
  forall poses', poses' = poses -> calibrate poses' = calibrate poses.
Proof.
  split; [ | split ].
  - unfold calibrate. apply call_result_congruence.
    + apply calls_bfs.
    + apply calls_combs.
  - unfold calibrate. apply call_result_congruence.
    + apply call_bfs.
    + apply call_combs.
  - now intros poses' ->.
Qed.

(** C10: the constructor is total: for any pose count it yields an instance
    holding the poses and their pairs, with neither [ft] nor [bt]; with
    fewer than two poses the pair list is empty, and the failure comes from
    the call. *)
Theorem constructor_never_fails (poses : list Transform) :
  exists self,
    __init__ poses = self /\
    _bfs self = poses /\ _combs self = combinations2 poses /\
    ft self = None /\ bt self = None /\
    ((length poses < 2)%nat ->
     _combs self = [] /\ __call__ self = (self, inl ValueError)).
Proof.
  exists (__init__ poses). repeat split.
  - cbn [__init__ _combs]. now apply combinations2_nil_iff.
  - apply call_no_pairs. cbn [__init__ _combs].
    now apply combinations2_nil_iff.
Qed.

(** ** The program on small inputs *)

Example calibrate_no_pose : calibrate [] = (__init__ [], inl ValueError).
Proof. reflexivity. Qed.

Example calibrate_one_pose :
  calibrate [pose_of Bt0 Ft0 Rz90]
  = (__init__ [pose_of Bt0 Ft0 Rz90], inl ValueError).
Proof. reflexivity. Qed.

(** The specification's scenario, on three poses: the ground truth comes
    back. *)
Example calibrate_spread_poses : snd (calibrate spread_poses) = inr (Ft0, Bt0).
Proof.
  unfold calibrate. rewrite call_returns by discriminate.
  cbn [snd]. do 2 f_equal; array_eq.
Qed.

(** Two poses leave the axis of their change undetermined; the call
    returns all the same. *)
Example calibrate_two_poses :
  snd (calibrate [pose_of Bt0 Ft0 Rx90; pose_of Bt0 Ft0 Rz90])
  = inr (V3 (qc 2 15) (qc 1 60) (qc 7 60), V3 (qc 8 15) (qc 19 30) (qc 2 3)).
Proof.
  unfold calibrate. rewrite call_returns by discriminate.
  cbn [snd]. do 2 f_equal; array_eq.
Qed.

(** A second invocation of the same instance. *)
Example calibrate_spread_poses_twice :
  snd (__call__ (fst (calibrate spread_poses))) = inr (Ft0, Bt0).
Proof.
  unfold calibrate. rewrite (call_returns (__init__ spread_poses)) by discriminate.
  cbn [fst]. rewrite call_returns by discriminate.
  cbn [snd]. do 2 f_equal; array_eq.
Qed.

(** ** Further properties of the call *)

(** The outcome of [calibrate], by the number of pairs. *)
Lemma calibrate_outcome poses :
  snd (calibrate poses)
  = match combinations2 poses with
    | [] => inl ValueError
    | _ :: _ => inr (solved_ft (__init__ poses), averaged_bt (__init__ poses))
    end.
Proof.
  unfold calibrate.
  destruct (combinations2 poses) as [| c cs] eqn:Hc.
  - now rewrite call_no_pairs.
  - rewrite call_returns; [ reflexivity | | ]; cbn [__init__ _combs _bfs].
    + now rewrite Hc.
    + intros ->. discriminate Hc.
Qed.

Lemma vsum_map_vadd {T} (f : T -> vec3) c (l : list T) :
  vsum (map (fun x => vadd (f x) c) l)
  = vadd (vsum (map f l)) (vscale (Qc_of_nat (length l)) c).
Proof.
  induction l as [| x l IH]; cbn [map vsum fold_right length].
  - change (Qc_of_nat 0) with (Q2Qc 0). array_ring.
  - fold (vsum (map (fun x => vadd (f x) c) l)). fold (vsum (map f l)).
    rewrite IH, Qc_of_nat_S. generalize (f x) (vsum (map f l)) (Qc_of_nat (length l)).
    array_ring.
Qed.

Lemma vsum_map_vscale {T} (f : T -> vec3) s (l : list T) :
  vsum (map (fun x => vscale s (f x)) l) = vscale s (vsum (map f l)).
Proof.
  induction l as [| x l IH]; cbn [map vsum fold_right].
  - array_ring.
  - fold (vsum (map (fun x => vscale s (f x)) l)). fold (vsum (map f l)).
    rewrite IH. generalize (f x) (vsum (map f l)). array_ring.
Qed.

Lemma vdiv_vadd u v k : vdiv (vadd u v) k = vadd (vdiv u k) (vdiv v k).
Proof.
  destruct u as [a b c], v as [a' b' c']. unfold vdiv, vadd. cbn [vx vy vz].
  f_equal; unfold Qcdiv; ring.
Qed.

Lemma vdiv_vscale_l s u k : vdiv (vscale s u) k = vscale s (vdiv u k).
Proof.
  destruct u as [a b c]. unfold vdiv, vscale. cbn [vx vy vz].
  f_equal; unfold Qcdiv; ring.
Qed.

Lemma lincomb_scale X s b :
  lincomb X (map (Qcmult s) b) = vscale s (lincomb X b).
Proof.
  revert b. induction X as [| c X IH]; intros [| x b]; cbn [map lincomb].
  1-3: array_ring.
  rewrite IH. generalize (lincomb X b). array_ring.
Qed.

Lemma combinations2_nonempty_length {T} (l : list T) c cs :
  combinations2 l = c :: cs -> length l <> O.
Proof. destruct l; [ discriminate | discriminate ]. Qed.

Lemma transform_apply_translate c p v :
  transform_apply (translate_pose c p) v = vadd (transform_apply p v) c.
Proof.
  destruct p as [R t]. unfold transform_apply, translate_pose. cbn [orient pos].
  generalize (mv R v). array_ring.
Qed.

Lemma solved_ft_translate c poses :
  solved_ft (__init__ (map (translate_pose c) poses)) = solved_ft (__init__ poses).
Proof.
  unfold solved_ft. cbn [__init__ _combs].
  rewrite combinations2_map, !map_map.
  rewrite (map_ext
             (fun x => A_block (translate_pose c (fst x), translate_pose c (snd x)))
             A_block) by (intros [p q]; reflexivity).
  rewrite (map_ext
             (fun x => b_block (translate_pose c (fst x), translate_pose c (snd x)))
             b_block); [ reflexivity | ].
  intros [[Ri ti] [Rj tj]]. cbn [fst snd b_block translate_pose orient pos].
  unfold reshape31. destruct ti as [a b d], tj as [a' b' d'], c as [x y z].
  unfold vsub, vadd. cbn [vx vy vz]. repeat (f_equal; try ring).
Qed.

(** X1: moving the origin of the base frame moves the pivot with it and
    leaves the tip offset as it is: on the poses with every translation
    shifted by [c], [calibrate] returns the same [Ft] and [Bt + c], and it
    fails when it failed before. *)
Theorem calibrate_translation_equivariant (c : vec3) (poses : list Transform) :
  snd (calibrate (map (translate_pose c) poses))
  = on_result (fun r => (fst r, vadd (snd r) c)) (snd (calibrate poses)).
Proof.
  rewrite !calibrate_outcome, combinations2_map.
  destruct (combinations2 poses) as [| p ps] eqn:Hc; [ reflexivity | ].
  cbn [map on_result fst snd]. f_equal. f_equal.
  - apply solved_ft_translate.
  - unfold averaged_bt. rewrite solved_ft_translate.
    cbn [__init__ _bfs]. rewrite map_map, length_map.
    rewrite (map_ext _ _ (fun p => transform_apply_translate c p _)).
    rewrite vsum_map_vadd, vdiv_vadd, vdiv_vscale; [ reflexivity | ].
    apply Qc_of_nat_nonzero. exact (combinations2_nonempty_length _ _ _ Hc).
Qed.

Lemma transform_apply_scale s p v :
  transform_apply (scale_pose s p) (vscale s v) = vscale s (transform_apply p v).
Proof.
  destruct p as [R t]. unfold transform_apply, scale_pose. cbn [orient pos].
  rewrite mv_vscale. generalize (mv R v). array_ring.
Qed.

Lemma stacked_rhs_scale s combs :
  concat (map (fun x => b_block (scale_pose s (fst x), scale_pose s (snd x))) combs)
  = map (Qcmult s) (concat (map b_block combs)).
Proof.
  induction combs as [| [[Ri ti] [Rj tj]] cs IH]; [ reflexivity | ].
  cbn [map concat]. rewrite map_app, IH. f_equal.
  cbn [fst snd b_block scale_pose orient pos]. unfold reshape31.
  destruct ti as [a b d], tj as [a' b' d'].
  unfold vsub, vscale. cbn [vx vy vz map]. repeat (f_equal; try ring).
Qed.

Lemma solved_ft_scale s poses :
  solved_ft (__init__ (map (scale_pose s) poses))
  = vscale s (solved_ft (__init__ poses)).
Proof.
  unfold solved_ft. cbn [__init__ _combs].
  rewrite combinations2_map, !map_map.
  rewrite (map_ext
             (fun x => A_block (scale_pose s (fst x), scale_pose s (snd x)))
             A_block) by (intros [p q]; reflexivity).
  now rewrite stacked_rhs_scale, lincomb_scale.
Qed.

(** X2: a change of the unit of length carries over to the result: on the
    poses with every translation scaled by [s], [calibrate] returns
    [s Ft] and [s Bt], and it fails when it failed before. *)
Theorem calibrate_scales_with_unit (s : Qc) (poses : list Transform) :
  snd (calibrate (map (scale_pose s) poses))
  = on_result (fun r => (vscale s (fst r), vscale s (snd r)))
              (snd (calibrate poses)).
Proof.
  rewrite !calibrate_outcome, combinations2_map.
  destruct (combinations2 poses) as [| p ps] eqn:Hc; [ reflexivity | ].
  cbn [map on_result fst snd]. f_equal. f_equal.
  - apply solved_ft_scale.
  - unfold averaged_bt. rewrite solved_ft_scale.
    cbn [__init__ _bfs]. rewrite map_map, length_map.
    rewrite (map_ext _ _ (fun p => transform_apply_scale s p _)).
    now rewrite vsum_map_vscale, vdiv_vscale_l.
Qed.

(** *** The normal equations, block by block *)

Lemma gram_app A1 A2 : gram (A1 ++ A2) = madd (gram A1) (gram A2).
Proof.
  induction A1 as [| r A1 IH]; cbn [app gram].
  - generalize (gram A2). array_ring.
  - rewrite IH. generalize (outer r r) (gram A1) (gram A2). array_ring.
Qed.

Lemma lincomb_app A1 A2 b1 b2 :
  length A1 = length b1 ->
  lincomb (A1 ++ A2) (b1 ++ b2) = vadd (lincomb A1 b1) (lincomb A2 b2).
Proof.
  revert b1. induction A1 as [| r A1 IH]; intros [| x b1] H;
    try discriminate H; cbn [app lincomb].
  - generalize (lincomb A2 b2). array_ring.
  - rewrite IH by (injection H as H; exact H).
    generalize (lincomb A1 b1) (lincomb A2 b2). array_ring.
Qed.

Lemma gram_rows m : gram (rows m) = mmul (mtrans m) m.
Proof. unfold rows. cbn [gram]. array_ring. Qed.

Lemma lincomb_rows m v : lincomb (rows m) (reshape31 v) = mv (mtrans m) v.
Proof. unfold rows, reshape31. cbn [lincomb]. array_ring. Qed.

Lemma gram_concat_ext {T} (f g : T -> list vec3) (l : list T) :
  (forall x, gram (f x) = gram (g x)) ->
  gram (concat (map f l)) = gram (concat (map g l)).
Proof.
  intros H. induction l as [| x l IH]; [ reflexivity | ].
  cbn [map concat]. now rewrite !gram_app, H, IH.
Qed.

Lemma lincomb_concat_ext {T} (fA gA : T -> list vec3) (fb gb : T -> list Qc)
      (l : list T) :
  (forall x, length (fA x) = length (fb x)) ->
  (forall x, length (gA x) = length (gb x)) ->
  (forall x, lincomb (fA x) (fb x) = lincomb (gA x) (gb x)) ->
  lincomb (concat (map fA l)) (concat (map fb l))
  = lincomb (concat (map gA l)) (concat (map gb l)).
Proof.
  intros Hf Hg H. induction l as [| x l IH]; [ reflexivity | ].
  cbn [map concat]. rewrite !lincomb_app by auto. now rewrite H, IH.
Qed.

(** The solve through the normal equations: [Ft = (A^T A)^+ (A^T b)]. *)
Lemma solved_ft_normal self :
  solved_ft self
  = mv (pinv_sym (gram (concat (map A_block (_combs self)))))
       (lincomb (concat (map A_block (_combs self)))
                (concat (map b_block (_combs self)))).
Proof. unfold solved_ft. apply pinv_dot. Qed.

Lemma block_lengths (c : Transform * Transform) :
  length (A_block c) = length (b_block c).
Proof. destruct c. reflexivity. Qed.

(** *** A turned base frame *)

Lemma msub_mmul_l q a b : msub (mmul q a) (mmul q b) = mmul q (msub a b).
Proof. array_ring. Qed.

Lemma vsub_mv q a b : vsub (mv q a) (mv q b) = mv q (vsub a b).
Proof. array_ring. Qed.

Lemma vadd_mv q a b : vadd (mv q a) (mv q b) = mv q (vadd a b).
Proof. array_ring. Qed.

Lemma vdiv_mv q u k : vdiv (mv q u) k = mv q (vdiv u k).
Proof.
  destruct q as [[a b c] [d e f] [g h i]], u as [x y z].
  unfold vdiv, mv, vdot. cbn [row0 row1 row2 vx vy vz].
  f_equal; unfold Qcdiv; ring.
Qed.

Lemma vsum_map_mv {T} q (f : T -> vec3) (l : list T) :
  vsum (map (fun x => mv q (f x)) l) = mv q (vsum (map f l)).
Proof.
  induction l as [| x l IH]; cbn [map vsum fold_right].
  - now rewrite mv_vzero.
  - fold (vsum (map (fun x => mv q (f x)) l)). fold (vsum (map f l)).
    now rewrite IH, vadd_mv.
Qed.

Section TurnedBase.

Variable Q : mat3.
Hypothesis Q_orth : mmul (mtrans Q) Q = mident.

Lemma A_block_rotate_base_gram c :
  gram (A_block (rotate_base Q (fst c), rotate_base Q (snd c)))
  = gram (A_block c).
Proof.
  destruct c as [[Ri ti] [Rj tj]].
  cbn [fst snd A_block rotate_base orient].
  rewrite !gram_rows, msub_mmul_l, mtrans_mmul.
  rewrite mmul_assoc, <- (mmul_assoc (mtrans Q)), Q_orth, mmul_ident_l.
  reflexivity.
Qed.

Lemma blocks_rotate_base_rhs c :
  lincomb (A_block (rotate_base Q (fst c), rotate_base Q (snd c)))
          (b_block (rotate_base Q (fst c), rotate_base Q (snd c)))
  = lincomb (A_block c) (b_block c).
Proof.
  destruct c as [[Ri ti] [Rj tj]].
  cbn [fst snd A_block b_block rotate_base orient pos].
  rewrite !lincomb_rows, msub_mmul_l, vsub_mv, mtrans_mmul.
  rewrite mv_mmul, <- (mv_mmul (mtrans Q)), Q_orth, mv_ident.
  reflexivity.
Qed.

Lemma solved_ft_rotate_base poses :
  solved_ft (__init__ (map (rotate_base Q) poses)) = solved_ft (__init__ poses).
Proof.
  rewrite !solved_ft_normal. cbn [__init__ _combs].
  rewrite combinations2_map, !map_map.
  rewrite (gram_concat_ext _ A_block _ A_block_rotate_base_gram).
  rewrite (lincomb_concat_ext _ A_block _ b_block _
             (fun c => block_lengths _) block_lengths blocks_rotate_base_rhs).
  reflexivity.
Qed.

Lemma transform_apply_rotate_base p v :
  transform_apply (rotate_base Q p) v = mv Q (transform_apply p v).
Proof.
  destruct p as [R t]. unfold transform_apply, rotate_base. cbn [orient pos].
  now rewrite mv_mmul, vadd_mv.
Qed.

End TurnedBase.

(** X3: the result does not depend on how the base frame is turned: for
    an orthogonal [Q], on the poses [Q * bf] the call returns the same
    [Ft] and the pivot [Q Bt], and it fails when it failed before. *)
Theorem calibrate_base_rotation_equivariant (Q : mat3) (poses : list Transform) :
  mmul (mtrans Q) Q = mident ->
  snd (calibrate (map (rotate_base Q) poses))
  = on_result (fun r => (fst r, mv Q (snd r))) (snd (calibrate poses)).
Proof.
  intros HQ.
  rewrite !calibrate_outcome, combinations2_map.
  destruct (combinations2 poses) as [| p ps] eqn:Hc; [ reflexivity | ].
  cbn [map on_result fst snd]. f_equal. f_equal.
  - now apply solved_ft_rotate_base.
  - unfold averaged_bt. rewrite (solved_ft_rotate_base Q HQ).
    cbn [__init__ _bfs]. rewrite map_map, length_map.
    rewrite (map_ext _ _ (fun p => transform_apply_rotate_base Q p _)).
    now rewrite vsum_map_mv, vdiv_mv.
Qed.

Lemma calibrate_base_rotation_equivariant_witness :
  mmul (mtrans Rz90) Rz90 = mident /\
  snd (calibrate (map (rotate_base Rz90) spread_poses))
  = on_result (fun r => (fst r, mv Rz90 (snd r))) (snd (calibrate spread_poses)).
Proof.
  assert (H : mmul (mtrans Rz90) Rz90 = mident) by array_eq.
  split; [ exact H | ].
  exact (calibrate_base_rotation_equivariant Rz90 spread_poses H).
Defined.

(** *** A turned flange frame *)

Lemma orthogonal_left_of_right q :
  mmul q (mtrans q) = mident -> mmul (mtrans q) q = mident.
Proof.
  intros H.
  assert (Hd : det q <> 0).
  { intros Hd. assert (E := det_mmul q (mtrans q)).
    rewrite H, det_ident, Hd in E.
    replace (0 * det (mtrans q)) with 0 in E by ring.
    now apply Q_apart_0_1. }
  assert (Ht : mscale (det q) (mtrans q) = adj q).
  { rewrite <- (mmul_ident_r (adj q)), <- H, <- mmul_assoc, mmul_adj_l.
    rewrite mmul_scale_l, mmul_ident_l. reflexivity. }
  assert (E : mscale (det q) (mmul (mtrans q) q) = mscale (det q) mident).
  { rewrite <- mmul_scale_l, Ht. apply mmul_adj_l. }
  apply (f_equal (mscale (/ det q))) in E.
  rewrite !mscale_mscale, Qcmult_inv_l, !mscale_1 in E by exact Hd.
  exact E.
Qed.

(** The pseudoinverse of a symmetric array is determined by its four
    properties. *)
Lemma sym_pinv_unique g p1 p2 :
  sym_pinv_of g p1 -> sym_pinv_of g p2 -> p1 = p2.
Proof.
  intros [_ Hc1 Hg1 Hp1] [_ Hc2 Hg2 Hp2].
  assert (E : mmul p1 g = mmul p2 g).
  { transitivity (mmul p1 (mmul g (mmul p2 g))); [ now rewrite Hg2 | ].
    transitivity (mmul (mmul g (mmul p1 g)) p2); [ | now rewrite Hg1 ].
    transitivity (mmul (mmul p1 g) (mmul p2 g)); [ now rewrite mmul_assoc | ].
    transitivity (mmul (mmul g p1) (mmul g p2)); [ now rewrite Hc1, Hc2 | ].
    now rewrite !mmul_assoc. }
  transitivity (mmul p1 (mmul g p1)); [ now rewrite Hp1 | ].
  transitivity (mmul (mmul p2 g) p1); [ now rewrite <- E, mmul_assoc | ].
  transitivity (mmul p2 (mmul p1 g)); [ now rewrite mmul_assoc, Hc1 | ].
  now rewrite E, Hc2.
Qed.

Lemma outer_mv_mv m r : outer (mv m r) (mv m r) = mmul m (mmul (outer r r) (mtrans m)).
Proof. array_ring. Qed.

Lemma conj_madd m a b :
  mmul m (mmul (madd a b) (mtrans m))
  = madd (mmul m (mmul a (mtrans m))) (mmul m (mmul b (mtrans m))).
Proof. array_ring. Qed.

Lemma gram_map_mv m A :
  gram (map (mv m) A) = mmul m (mmul (gram A) (mtrans m)).
Proof.
  induction A as [| r A IH]; cbn [map gram].
  - now rewrite mmul_zero_l, mmul_zero_r.
  - now rewrite IH, outer_mv_mv, conj_madd.
Qed.

Lemma rows_mmul d q : rows (mmul d q) = map (mv (mtrans q)) (rows d).
Proof. reflexivity. Qed.

Lemma msub_mmul_r a b q : msub (mmul a q) (mmul b q) = mmul (msub a b) q.
Proof. array_ring. Qed.

Section TurnedTool.

Variable Q : mat3.
Hypothesis Q_right : mmul Q (mtrans Q) = mident.

Lemma conj_mmul a b :
  mmul (mmul (mtrans Q) (mmul a Q)) (mmul (mtrans Q) (mmul b Q))
  = mmul (mtrans Q) (mmul (mmul a b) Q).
Proof.
  rewrite !mmul_assoc. rewrite <- (mmul_assoc Q (mtrans Q)), Q_right, mmul_ident_l.
  reflexivity.
Qed.

Lemma sym_pinv_conj g p :
  sym_pinv_of g p ->
  sym_pinv_of (mmul (mtrans Q) (mmul g Q)) (mmul (mtrans Q) (mmul p Q)).
Proof.
  intros [Hs Hc Hg Hp]. split.
  - unfold msym in *. rewrite !mtrans_mmul, mtrans_involutive, Hs.
    now rewrite mmul_assoc.
  - now rewrite !conj_mmul, Hc.
  - now rewrite !conj_mmul, Hg.
  - now rewrite !conj_mmul, Hp.
Qed.

Lemma msym_conj g : msym g -> msym (mmul (mtrans Q) (mmul g Q)).
Proof.
  unfold msym. intros Hs.
  rewrite !mtrans_mmul, mtrans_involutive, Hs. now rewrite mmul_assoc.
Qed.

Lemma pinv_sym_conj g :
  msym g ->
  pinv_sym (mmul (mtrans Q) (mmul g Q)) = mmul (mtrans Q) (mmul (pinv_sym g) Q).
Proof.
  intros Hs. apply (sym_pinv_unique (mmul (mtrans Q) (mmul g Q))).
  - apply pinv_sym_correct. now apply msym_conj.
  - apply sym_pinv_conj. now apply pinv_sym_correct.
Qed.

Lemma A_blocks_rotate_tool combs :
  concat (map (fun c => A_block (rotate_tool Q (fst c), rotate_tool Q (snd c))) combs)
  = map (mv (mtrans Q)) (concat (map A_block combs)).
Proof.
  induction combs as [| [[Ri ti] [Rj tj]] cs IH]; [ reflexivity | ].
  cbn [map concat]. rewrite map_app, IH. f_equal.
  cbn [fst snd A_block rotate_tool orient]. now rewrite msub_mmul_r, rows_mmul.
Qed.

Lemma solved_ft_rotate_tool poses :
  solved_ft (__init__ (map (rotate_tool Q) poses))
  = mv (mtrans Q) (solved_ft (__init__ poses)).
Proof.
  rewrite !solved_ft_normal. cbn [__init__ _combs].
  rewrite combinations2_map, !map_map.
  rewrite A_blocks_rotate_tool.
  rewrite (map_ext
             (fun x => b_block (rotate_tool Q (fst x), rotate_tool Q (snd x)))
             b_block) by (intros [p q]; reflexivity).
  rewrite gram_map_mv, mtrans_involutive, pinv_sym_conj by apply gram_sym.
  rewrite lincomb_map_mv, <- !mv_mmul, !mmul_assoc, Q_right, mmul_ident_r.
  reflexivity.
Qed.

Lemma transform_apply_rotate_tool p v :
  transform_apply (rotate_tool Q p) (mv (mtrans Q) v) = transform_apply p v.
Proof.
  destruct p as [R t]. unfold transform_apply, rotate_tool. cbn [orient pos].
  now rewrite <- mv_mmul, mmul_assoc, Q_right, mmul_ident_r.
Qed.

End TurnedTool.

(** X4: turning the flange frame turns the tip offset and leaves the pivot
    where it is: for an orthogonal [Q], on the poses [bf * Q] the call
    returns [Q^T Ft] and the same [Bt], and it fails when it failed
    before. *)
Theorem calibrate_tool_rotation_equivariant (Q : mat3) (poses : list Transform) :
  mmul Q (mtrans Q) = mident ->
  snd (calibrate (map (rotate_tool Q) poses))
  = on_result (fun r => (mv (mtrans Q) (fst r), snd r)) (snd (calibrate poses)).
Proof.
  intros HQ.
  rewrite !calibrate_outcome, combinations2_map.
  destruct (combinations2 poses) as [| p ps] eqn:Hc; [ reflexivity | ].
  cbn [map on_result fst snd]. f_equal. f_equal.
  - now apply solved_ft_rotate_tool.
  - unfold averaged_bt. rewrite (solved_ft_rotate_tool Q HQ).
    cbn [__init__ _bfs]. rewrite map_map, length_map.
    now rewrite (map_ext _ _ (fun p => transform_apply_rotate_tool Q HQ p _)).
Qed.

Lemma calibrate_tool_rotation_equivariant_witness :
  mmul Rx90 (mtrans Rx90) = mident /\
  snd (calibrate (map (rotate_tool Rx90) spread_poses))
  = on_result (fun r => (mv (mtrans Rx90) (fst r), snd r))
              (snd (calibrate spread_poses)).
Proof.
  assert (H : mmul Rx90 (mtrans Rx90) = mident) by array_eq.
  split; [ exact H | ].
  exact (calibrate_tool_rotation_equivariant Rx90 spread_poses H).
Defined.

(** *** The order of the poses *)

Section PairSums.

Variables T M : Type.
Variable add : M -> M -> M.
Variable zero : M.
Hypothesis add_comm : forall a b, add a b = add b a.
Hypothesis add_assoc : forall a b c, add a (add b c) = add (add a b) c.
Hypothesis add_zero_l : forall a, add zero a = a.

Lemma sum_over_app {U} (g : U -> M) l1 l2 :
  sum_over add zero g (l1 ++ l2)
  = add (sum_over add zero g l1) (sum_over add zero g l2).
Proof.
  induction l1 as [| x l1 IH]; cbn [app sum_over fold_right].
  - now rewrite add_zero_l.
  - fold (sum_over add zero g (l1 ++ l2)). fold (sum_over add zero g l1).
    now rewrite IH, add_assoc.
Qed.

Lemma sum_over_map {U V} (h : U -> V) (g : V -> M) l :
  sum_over add zero g (map h l) = sum_over add zero (fun u => g (h u)) l.
Proof.
  induction l as [| x l IH]; [ reflexivity | ].
  cbn [map sum_over fold_right]. f_equal. exact IH.
Qed.

Lemma add_swap a b c : add a (add b c) = add b (add a c).
Proof. now rewrite !add_assoc, (add_comm a b). Qed.

Lemma sum_over_perm {U} (g : U -> M) l l' :
  Permutation l l' -> sum_over add zero g l = sum_over add zero g l'.
Proof.
  induction 1 as [| x l l' Hp IH | x y l | l l' l'' H1 IH1 H2 IH2].
  - reflexivity.
  - cbn [sum_over fold_right]. f_equal. exact IH.
  - cbn [sum_over fold_right]. apply add_swap.
  - now rewrite IH1.
Qed.

Variable f : T -> T -> M.
Hypothesis f_sym : forall x y, f x y = f y x.

Let g (c : T * T) : M := f (fst c) (snd c).

Lemma pair_sum_cons x l :
  sum_over add zero g (combinations2 (x :: l))
  = add (sum_over add zero (f x) l) (sum_over add zero g (combinations2 l)).
Proof.
  change (combinations2 (x :: l)) with (map (pair x) l ++ combinations2 l).
  rewrite sum_over_app, sum_over_map. reflexivity.
Qed.

(** A symmetric function summed over all pairs does not depend on the
    order of the list. *)
Lemma pair_sum_perm l l' :
  Permutation l l' ->
  sum_over add zero g (combinations2 l) = sum_over add zero g (combinations2 l').
Proof.
  induction 1 as [| x l l' Hp IH | x y l | l l' l'' H1 IH1 H2 IH2].
  - reflexivity.
  - rewrite !pair_sum_cons, IH. f_equal. now apply sum_over_perm.
  - rewrite !pair_sum_cons. cbn [sum_over fold_right].
    fold (sum_over add zero (f x) l). fold (sum_over add zero (f y) l).
    rewrite (f_sym y x), <- !add_assoc. f_equal. apply add_swap.
  - now rewrite IH1.
Qed.

End PairSums.

Lemma madd_comm a b : madd a b = madd b a.
Proof. array_ring. Qed.
Lemma madd_assoc a b c : madd a (madd b c) = madd (madd a b) c.
Proof. array_ring. Qed.
Lemma madd_zero_l a : madd mzero a = a.
Proof. array_ring. Qed.
Lemma vadd_comm a b : vadd a b = vadd b a.
Proof. array_ring. Qed.
Lemma vadd_assoc a b c : vadd a (vadd b c) = vadd (vadd a b) c.
Proof. array_ring. Qed.
Lemma vadd_zero_l a : vadd vzero a = a.
Proof. array_ring. Qed.
Lemma madd_zero_r a : madd a mzero = a.
Proof. array_ring. Qed.
Lemma vadd_zero_r a : vadd a vzero = a.
Proof. array_ring. Qed.

Lemma gram_stack combs :
  gram (concat (map A_block combs))
  = sum_over madd mzero (fun c => gram (A_block (fst c, snd c))) combs.
Proof.
  induction combs as [| [p q] cs IH]; [ reflexivity | ].
  cbn [map concat sum_over fold_right fst snd]. rewrite gram_app, IH. reflexivity.
Qed.

Lemma rhs_stack combs :
  lincomb (concat (map A_block combs)) (concat (map b_block combs))
  = sum_over vadd vzero
      (fun c => lincomb (A_block (fst c, snd c)) (b_block (fst c, snd c))) combs.
Proof.
  induction combs as [| [p q] cs IH]; [ reflexivity | ].
  cbn [map concat sum_over fold_right fst snd].
  rewrite lincomb_app by apply block_lengths. rewrite IH. reflexivity.
Qed.

Lemma block_gram_sym p q : gram (A_block (p, q)) = gram (A_block (q, p)).
Proof.
  cbn [A_block]. rewrite !gram_rows.
  generalize (orient p) (orient q). array_ring.
Qed.

Lemma block_rhs_sym p q :
  lincomb (A_block (p, q)) (b_block (p, q))
  = lincomb (A_block (q, p)) (b_block (q, p)).
Proof.
  cbn [A_block b_block]. rewrite !lincomb_rows.
  generalize (orient p) (orient q) (pos p) (pos q). array_ring.
Qed.

Lemma vsum_sum_over {T} (h : T -> vec3) l :
  vsum (map h l) = sum_over vadd vzero h l.
Proof.
  induction l as [| x l IH]; [ reflexivity | ].
  cbn [map vsum fold_right sum_over]. f_equal. exact IH.
Qed.

Lemma solved_ft_perm poses poses' :
  Permutation poses poses' ->
  solved_ft (__init__ poses) = solved_ft (__init__ poses').
Proof.
  intros Hp. rewrite !solved_ft_normal. cbn [__init__ _combs].
  rewrite !gram_stack, !rhs_stack.
  rewrite (pair_sum_perm _ _ madd mzero madd_comm madd_assoc madd_zero_l
             (fun p q => gram (A_block (p, q))) block_gram_sym _ _ Hp).
  rewrite (pair_sum_perm _ _ vadd vzero vadd_comm vadd_assoc vadd_zero_l
             (fun p q => lincomb (A_block (p, q)) (b_block (p, q)))
             block_rhs_sym _ _ Hp).
  reflexivity.
Qed.

(** X5: the result does not depend on the order in which the poses are
    given: a permutation of the input sequence has the same outcome. *)
Theorem calibrate_permutation_invariant (poses poses' : list Transform) :
  Permutation poses poses' ->
  snd (calibrate poses) = snd (calibrate poses').
Proof.
  intros Hp. rewrite !calibrate_outcome.
  assert (Hlen := Permutation_length Hp).
  destruct (combinations2 poses) as [| c cs] eqn:Hc;
    destruct (combinations2 poses') as [| c' cs'] eqn:Hc'.
  - reflexivity.
  - exfalso.
    assert (H : combinations2 poses = []) by exact Hc.
    apply combinations2_nil_iff in H.
    assert (H' : combinations2 poses' = []).
    { apply combinations2_nil_iff. lia. }
    rewrite Hc' in H'. discriminate H'.
  - exfalso.
    assert (H' : combinations2 poses' = []) by exact Hc'.
    apply combinations2_nil_iff in H'.
    assert (H : combinations2 poses = []).
    { apply combinations2_nil_iff. lia. }
    rewrite Hc in H. discriminate H.
  - f_equal. f_equal; [ now apply solved_ft_perm | ].
    unfold averaged_bt. rewrite (solved_ft_perm _ _ Hp).
    cbn [__init__ _bfs]. rewrite Hlen. f_equal.
    rewrite !vsum_sum_over.
    apply (sum_over_perm _ vadd vzero vadd_comm vadd_assoc). exact Hp.
Qed.

Lemma calibrate_permutation_invariant_witness :
  Permutation spread_poses (rev spread_poses) /\
  snd (calibrate spread_poses) = snd (calibrate (rev spread_poses)).
Proof.
  assert (H : Permutation spread_poses (rev spread_poses))
    by apply Permutation_rev.
  split; [ exact H | ].
  exact (calibrate_permutation_invariant spread_poses (rev spread_poses) H).
Defined.

(** *** Poses that share a pivot *)

Lemma combinations2_In {T} (l : list T) p q :
  In (p, q) (combinations2 l) -> In p l /\ In q l.
Proof.
  induction l as [| x l IH]; cbn [combinations2]; [ intros [] | ].
  intros H. apply in_app_or in H as [H | H].
  - apply in_map_iff in H as [y [E Hy]]. injection E as <- <-.
    split; [ now left | now right ].
  - destruct (IH H) as [Hp Hq]. split; now right.
Qed.

Lemma b_block_shared_pivot F B p q :
  transform_apply p F = B -> transform_apply q F = B ->
  b_block (p, q) = rows_dot (A_block (p, q)) F.
Proof.
  intros Hp Hq. rewrite <- Hq in Hp. clear Hq B.
  destruct p as [R t], q as [R' t'].
  unfold transform_apply in Hp. cbn [orient pos] in Hp.
  unfold b_block, A_block, rows_dot, rows, reshape31. cbn [orient pos map].
  assert (E : vsub t' t = mv (msub R R') F).
  { rewrite mv_msub. apply vsub_eq_zero.
    replace (vsub (vsub t' t) (vsub (mv R F) (mv R' F)))
      with (vsub (vadd (mv R' F) t') (vadd (mv R F) t))
      by (generalize (mv R F) (mv R' F); array_ring).
    rewrite Hp. apply vsub_self. }
  rewrite E. reflexivity.
Qed.

(** The solve reproduces the right-hand side whenever the system has a
    solution: [A (pinv(A) (A F)) = A F]. *)
Lemma pinv_consistent A F :
  Forall (fun r => vdot r (vsub (lincomb (pinv A) (rows_dot A F)) F) = 0) A.
Proof.
  destruct (pinv_gram_spec A) as [Hs Hc Hg Hp].
  rewrite pinv_dot, lincomb_rows_dot, <- mv_mmul.
  eapply Forall_impl; [ | exact (rows_fixed A) ].
  intros r Hr. cbv beta in *.
  rewrite vdot_vsub_r, vdot_mv_trans, mtrans_mmul, Hs.
  rewrite (gram_sym A : mtrans (gram A) = gram A), Hr. ring.
Qed.

Lemma mean_of_constant (c : vec3) (pts : list vec3) :
  pts <> [] -> Forall (fun x => x = c) pts ->
  vdiv (vsum pts) (Qc_of_nat (length pts)) = c.
Proof.
  intros Hne H.
  assert (E : pts = map (fun _ => c) pts).
  { induction H as [| x l Hx Hl IH]; [ reflexivity | ].
    cbn [map]. f_equal; [ exact Hx | ]. destruct l as [| y l].
    - reflexivity.
    - apply IH. discriminate. }
  rewrite E at 1. rewrite vsum_const. apply vdiv_vscale.
  apply Qc_of_nat_nonzero. destruct pts; [ congruence | discriminate ].
Qed.

(** X6: when the poses share a pivot, that is when some tip offset [F] is
    sent to one point [B] by every pose, the returned pair is such a pair
    as well, whatever the rank of the system: every pose sends the
    returned [Ft] to the returned [Bt]. *)
Theorem shared_pivot_is_reproduced (poses : list Transform) (F B : vec3) :
  (2 <= length poses)%nat ->
  Forall (fun p => transform_apply p F = B) poses ->
  exists Ft' Bt',
    snd (calibrate poses) = inr (Ft', Bt') /\
    Forall (fun p => transform_apply p Ft' = Bt') poses.
Proof.
  intros Hn Hshared.
  destruct (init_nonempty poses Hn) as [Hc Hb].
  exists (solved_ft (__init__ poses)), (averaged_bt (__init__ poses)).
  split; [ unfold calibrate; now rewrite call_returns | ].
  set (Ft' := solved_ft (__init__ poses)).
  rewrite Forall_forall in Hshared.
  assert (Hrhs : concat (map b_block (combinations2 poses))
                 = rows_dot (concat (map A_block (combinations2 poses))) F).
  { apply stacked_rhs_of_blocks. apply Forall_forall. intros [p q] Hpq.
    apply combinations2_In in Hpq as [Hp Hq].
    apply b_block_shared_pivot with (B := B); now apply Hshared. }
  assert (Hnull : Forall (fun r => vdot r (vsub Ft' F) = 0)
                         (concat (map A_block (combinations2 poses)))).
  { unfold Ft', solved_ft. cbn [__init__ _combs]. rewrite Hrhs.
    apply pinv_consistent. }
  destruct poses as [| p0 ps]; [ cbn in Hn; lia | ].
  assert (Hsame : forall p, In p (p0 :: ps) ->
            transform_apply p Ft' = transform_apply p0 Ft').
  { intros p Hp. destruct (In_nth _ _ p0 Hp) as [i [Hi Ei]].
    assert (H := null_space_same_image (p0 :: ps) p0 _ Hnull i 0 Hi
                   ltac:(cbn [length]; lia)).
    rewrite Ei in H. cbn [nth] in H.
    assert (Hp1 := Hshared p Hp).
    assert (Hp0 := Hshared p0 (or_introl eq_refl)).
    unfold transform_apply in *.
    apply vsub_eq_zero.
    replace (vsub (vadd (mv (orient p) Ft') (pos p))
                  (vadd (mv (orient p0) Ft') (pos p0)))
      with (vadd (vsub (mv (orient p) (vsub Ft' F)) (mv (orient p0) (vsub Ft' F)))
                 (vsub (vadd (mv (orient p) F) (pos p))
                       (vadd (mv (orient p0) F) (pos p0))))
      by (generalize (orient p) (orient p0) (pos p) (pos p0); clear; array_ring).
    rewrite H, Hp1, Hp0, !vsub_self. reflexivity. }
  assert (Hbt : averaged_bt (__init__ (p0 :: ps)) = transform_apply p0 Ft').
  { unfold averaged_bt. fold Ft'. cbn [__init__ _bfs].
    rewrite <- (length_map (fun bfi => transform_apply bfi Ft') (p0 :: ps)).
    apply mean_of_constant; [ discriminate | ].
    apply Forall_forall. intros x Hx.
    apply in_map_iff in Hx as [p [<- Hp]]. now apply Hsame. }
  rewrite Hbt. apply Forall_forall. exact Hsame.
Qed.

Lemma shared_pivot_is_reproduced_witness :
  (2 <= length aligned_poses)%nat /\
  Forall (fun p => transform_apply p Ft0 = Bt0) aligned_poses /\
  exists Ft' Bt',
    snd (calibrate aligned_poses) = inr (Ft', Bt') /\
    Forall (fun p => transform_apply p Ft' = Bt') aligned_poses.
Proof.
  assert (Hn : (2 <= length aligned_poses)%nat)
    by (cbn [aligned_poses aligned_rotations map length]; lia).
  assert (Hs : Forall (fun p => transform_apply p Ft0 = Bt0) aligned_poses).
  { unfold aligned_poses. apply Forall_forall. intros p Hp.
    apply in_map_iff in Hp as [R [<- _]]. apply transform_apply_pose_of. }
  split; [ exact Hn | ]. split; [ exact Hs | ].
  exact (shared_pivot_is_reproduced aligned_poses Ft0 Bt0 Hn Hs).
Defined.

(** *** Least squares *)

Lemma sum_sq_nonneg l : 0 <= sum_sq l.
Proof.
  induction l as [| a l IH]; cbn [sum_sq fold_right].
  - apply Qcle_refl.
  - apply Qc_add_nonneg; [ apply Qc_sq_nonneg | exact IH ].
Qed.

Lemma residual_step r beta x w g l s1 s2 :
  (vdot r (vadd x w) - beta) * (vdot r (vadd x w) - beta)
  + (s1 + (1 + 1) * vdot w (vsub (mv g x) l) + s2)
  = (vdot r x - beta) * (vdot r x - beta) + s1
    + (1 + 1) * vdot w (vsub (mv (madd (outer r r) g) x) (vadd (vscale beta r) l))
    + (vdot r w * vdot r w + s2).
Proof. array_ring. Qed.

(** The sum of squared residuals around [x]: the cross term is the
    residual of the normal equations. *)
Lemma sum_sq_residual_expand A b x w :
  length A = length b ->
  sum_sq (residual A b (vadd x w))
  = sum_sq (residual A b x)
    + (1 + 1) * vdot w (vsub (mv (gram A) x) (lincomb A b))
    + sum_sq (rows_dot A w).
Proof.
  revert b. induction A as [| r A IH]; intros [| beta b] H; try discriminate H.
  - cbn [residual sum_sq fold_right gram lincomb rows_dot map].
    rewrite mv_zero, vsub_self, vdot_vzero_r. ring.
  - cbn [residual sum_sq fold_right gram lincomb rows_dot map].
    fold (sum_sq (residual A b (vadd x w))). fold (sum_sq (residual A b x)).
    fold (rows_dot A w). fold (sum_sq (rows_dot A w)).
    rewrite IH by (injection H as H; exact H).
    apply residual_step.
Qed.

Lemma vadd_vsub_cancel x y : vadd x (vsub y x) = y.
Proof. array_ring. Qed.

(** [pinv(A) b] minimizes the sum of squared residuals. *)
Lemma pinv_least_squares A b y :
  length A = length b ->
  sum_sq (residual A b (lincomb (pinv A) b)) <= sum_sq (residual A b y).
Proof.
  intros H. set (x := lincomb (pinv A) b).
  rewrite <- (vadd_vsub_cancel x y) at 1.
  rewrite (sum_sq_residual_expand A b x (vsub y x) H).
  assert (Hn : mv (gram A) x = lincomb A b)
    by exact (pinv_normal_equations A b).
  rewrite Hn, vsub_self, vdot_vzero_r.
  replace (sum_sq (residual A b x) + (1 + 1) * 0 + sum_sq (rows_dot A (vsub y x)))
    with (sum_sq (residual A b x) + sum_sq (rows_dot A (vsub y x))) by ring.
  apply Qc_le_add_nonneg, sum_sq_nonneg.
Qed.

(** X7: the returned tip offset is a least-squares solution of the stacked
    equations [(Ri - Rj) x = tj - ti]: no [y] has a smaller sum of squared
    residuals, noisy poses included. *)
Theorem calibrate_minimizes_residual (poses : list Transform) :
  (2 <= length poses)%nat ->
  exists A b Ft Bt,
    stack_A (combinations2 poses) = inr A /\
    stack_b (combinations2 poses) = inr b /\
    snd (calibrate poses) = inr (Ft, Bt) /\
    forall y, sum_sq (residual A b Ft) <= sum_sq (residual A b y).
Proof.
  intros Hn. destruct (init_nonempty poses Hn) as [Hc Hb].
  cbn [__init__ _combs] in Hc.
  exists (concat (map A_block (combinations2 poses))),
         (concat (map b_block (combinations2 poses))),
         (solved_ft (__init__ poses)), (averaged_bt (__init__ poses)).
  unfold stack_A, stack_b.
  rewrite !np_vstack_nonempty by now apply map_nonempty.
  split; [ reflexivity | ]. split; [ reflexivity | ].
  split; [ unfold calibrate; now rewrite call_returns | ].
  intros y. unfold solved_ft. cbn [__init__ _combs].
  apply pinv_least_squares.
  now rewrite length_concat_A_blocks, length_concat_b_blocks.
Qed.

Lemma calibrate_minimizes_residual_witness :
  (2 <= length aligned_poses)%nat /\
  exists A b Ft Bt,
    stack_A (combinations2 aligned_poses) = inr A /\
    stack_b (combinations2 aligned_poses) = inr b /\
    snd (calibrate aligned_poses) = inr (Ft, Bt) /\
    forall y, sum_sq (residual A b Ft) <= sum_sq (residual A b y).
Proof.
  assert (Hn : (2 <= length aligned_poses)%nat)
    by (cbn [aligned_poses aligned_rotations map length]; lia).
  split; [ exact Hn | ].
  exact (calibrate_minimizes_residual aligned_poses Hn).
Defined.

(** *** Poses of one orientation *)

Lemma lincomb_zero_columns X b :
  Forall (fun c => c = vzero) X -> lincomb X b = vzero.
Proof.
  intros H. revert b.
  induction H as [| c X Hc HX IH]; intros [| x b]; cbn [lincomb];
    try reflexivity.
  rewrite Hc, IH. array_ring.
Qed.

Lemma A_blocks_one_orientation R combs :
  Forall (fun c => orient (fst c) = R /\ orient (snd c) = R) combs ->
  Forall (fun r => r = vzero) (concat (map A_block combs)).
Proof.
  induction 1 as [| [p q] cs [Hp Hq] Hcs IH]; cbn [map concat].
  - constructor.
  - apply Forall_app. split; [ | exact IH ].
    cbn [fst snd] in Hp, Hq. cbn [A_block]. rewrite Hp, Hq, msub_self.
    repeat constructor.
Qed.

(** X8: poses that all have the same orientation carry no information on
    the tip offset, and the call does not fail on them: it returns the
    zero vector for [Ft] and the centroid of the translations for [Bt]. *)
Theorem one_orientation_gives_zero_offset (R : mat3) (poses : list Transform) :
  (2 <= length poses)%nat ->
  Forall (fun p => orient p = R) poses ->
  snd (calibrate poses)
  = inr (vzero, vdiv (vsum (map pos poses)) (Qc_of_nat (length poses))).
Proof.
  intros Hn HR. destruct (init_nonempty poses Hn) as [Hc Hb].
  unfold calibrate. rewrite call_returns by assumption. cbn [snd].
  assert (Hft : solved_ft (__init__ poses) = vzero).
  { unfold solved_ft, pinv. cbn [__init__ _combs].
    apply lincomb_zero_columns.
    assert (HA := A_blocks_one_orientation R (combinations2 poses)).
    rewrite Forall_forall in HR.
    apply Forall_map. eapply Forall_impl; [ | apply HA ].
    - intros r ->. apply mv_vzero.
    - apply Forall_forall. intros [p q] Hpq.
      apply combinations2_In in Hpq as [Hp Hq]. cbn [fst snd].
      split; now apply HR. }
  unfold averaged_bt. rewrite Hft. cbn [__init__ _bfs].
  rewrite (map_ext (fun bfi => transform_apply bfi vzero) pos); [ reflexivity | ].
  intros p. unfold transform_apply. rewrite mv_vzero. apply vadd_zero_l.
Qed.

Lemma one_orientation_gives_zero_offset_witness :
  (2 <= length [pose_of Bt0 Ft0 Rz90; mkTransform Rz90 vzero])%nat /\
  Forall (fun p => orient p = Rz90) [pose_of Bt0 Ft0 Rz90; mkTransform Rz90 vzero] /\
  snd (calibrate [pose_of Bt0 Ft0 Rz90; mkTransform Rz90 vzero])
  = inr (vzero,
         vdiv (vsum (map pos [pose_of Bt0 Ft0 Rz90; mkTransform Rz90 vzero]))
              (Qc_of_nat (length [pose_of Bt0 Ft0 Rz90; mkTransform Rz90 vzero]))).
Proof.
  assert (Hn : (2 <= length [pose_of Bt0 Ft0 Rz90; mkTransform Rz90 vzero])%nat)
    by (cbn [length]; lia).
  assert (HR : Forall (fun p => orient p = Rz90)
                      [pose_of Bt0 Ft0 Rz90; mkTransform Rz90 vzero])
    by (repeat constructor).
  split; [ exact Hn | ]. split; [ exact HR | ].
  exact (one_orientation_gives_zero_offset Rz90 _ Hn HR).
Defined.

(** *** The test harness *)

Lemma test_pose_pose_of bt ft o e :
  test_pose bt ft (o, e) = pose_of bt (vadd ft e) o.
Proof. reflexivity. Qed.

Lemma length2_error e f : length2 (vsub (vadd f e) f) = vdot e e.
Proof. unfold length2. array_ring. Qed.

Lemma length2_self f : length2 (vsub f f) = 0.
Proof. unfold length2. array_ring. Qed.

(** X9: when every sample draws the same noise vector [e] (in particular
    when the noise amplitude is zero, so that [e] is zero) and two changes
    of orientation among the samples have no common fixed direction,
    [_test] returns the squared errors [|e|^2] for the tip offset and [0]
    for the pivot: a constant bias goes into [Ft] and the pivot stays
    exact. *)
Theorem test_constant_noise
        (draws : list (mat3 * vec3)) (e : vec3) (i j k l : nat) :
  (i < length draws)%nat -> (j < length draws)%nat ->
  (k < length draws)%nat -> (l < length draws)%nat ->
  (forall v,
      mv (nth i (map fst draws) mident) v = mv (nth j (map fst draws) mident) v ->
      mv (nth k (map fst draws) mident) v = mv (nth l (map fst draws) mident) v ->
      v = vzero) ->
  Forall (fun d => snd d = e) draws ->
  _test draws = inr (vdot e e, 0).
Proof.
  intros Hi Hj Hk Hl Haxes He.
  assert (Hposes : map (test_pose Bt0 Ft0) draws
                   = map (pose_of Bt0 (vadd Ft0 e)) (map fst draws)).
  { rewrite map_map. apply map_ext_in. intros [o e'] Hd.
    rewrite Forall_forall in He. specialize (He _ Hd). cbn [snd] in He.
    subst e'. reflexivity. }
  unfold _test. cbv zeta. rewrite Hposes.
  change (__call__ (__init__ ?ps)) with (calibrate ps).
  rewrite (recovery_trivial_null_space Bt0 (vadd Ft0 e) (map fst draws)).
  - cbn [snd on_result fst]. now rewrite length2_error, length2_self.
  - intros w Hw. rewrite length_map in Hw. apply Haxes; now apply Hw.
Qed.

Lemma test_constant_noise_witness :
  ((0 < length biased_draws)%nat /\ (1 < length biased_draws)%nat /\
   (2 < length biased_draws)%nat) /\
  (forall v,
      mv (nth 0 (map fst biased_draws) mident) v
      = mv (nth 1 (map fst biased_draws) mident) v ->
      mv (nth 0 (map fst biased_draws) mident) v
      = mv (nth 2 (map fst biased_draws) mident) v ->
      v = vzero) /\
  Forall (fun d => snd d = V3 (qc 1 200) 0 0) biased_draws /\
  _test biased_draws = inr (vdot (V3 (qc 1 200) 0 0) (V3 (qc 1 200) 0 0), 0).
Proof.
  assert (H0 : (0 < length biased_draws)%nat)
    by (cbn [biased_draws spread_rotations map length]; lia).
  assert (H1 : (1 < length biased_draws)%nat)
    by (cbn [biased_draws spread_rotations map length]; lia).
  assert (H2 : (2 < length biased_draws)%nat)
    by (cbn [biased_draws spread_rotations map length]; lia).
  assert (Hax : forall v,
      mv (nth 0 (map fst biased_draws) mident) v
      = mv (nth 1 (map fst biased_draws) mident) v ->
      mv (nth 0 (map fst biased_draws) mident) v
      = mv (nth 2 (map fst biased_draws) mident) v ->
      v = vzero) by exact spread_no_common_direction.
  assert (He : Forall (fun d => snd d = V3 (qc 1 200) 0 0) biased_draws)
    by (repeat constructor).
  split; [ now repeat split | ]. split; [ exact Hax | ]. split; [ exact He | ].
  exact (test_constant_noise biased_draws _ 0 1 0 2 H0 H1 H0 H2 Hax He).
Defined.

(** X10: [_test] fails exactly when it is asked for fewer than two
    samples, with the [ValueError] of the call; with two samples or more
    it returns its two errors. *)
Theorem test_fails_iff_fewer_than_two (draws : list (mat3 * vec3)) :
  (forall e, _test draws = inl e
             <-> e = ValueError /\ (length draws < 2)%nat) /\
  ((2 <= length draws)%nat -> exists eft ebt, _test draws = inr (eft, ebt)).
Proof.
  unfold _test. cbv zeta.
  change (__call__ (__init__ ?ps)) with (calibrate ps).
  rewrite calibrate_outcome.
  destruct (combinations2 (map (test_pose Bt0 Ft0) draws)) as [| c cs] eqn:Hc.
  - assert (Hlen : (length draws < 2)%nat).
    { apply combinations2_nil_iff in Hc. now rewrite length_map in Hc. }
    cbn [on_result]. split.
    + intros e. split.
      * intros E. injection E as <-. now split.
      * now intros [-> _].
    + intros H. lia.
  - assert (Hlen : (2 <= length draws)%nat).
    { destruct (le_lt_dec 2 (length draws)) as [H | H]; [ exact H | exfalso ].
      assert (E : combinations2 (map (test_pose Bt0 Ft0) draws) = []).
      { apply combinations2_nil_iff. now rewrite length_map. }
      rewrite Hc in E. discriminate E. }
    cbn [on_result]. split.
    + intros e. split; [ discriminate | intros [_ H]; lia ].
    + intros _. eexists _, _. reflexivity.
Qed.

(** *** Invoking an instance again *)

(** A further call leaves the instance as the call before left it. *)
Lemma call_idempotent (self : PivotCalibrator) :
  fst (__call__ (fst (__call__ self))) = fst (__call__ self).
Proof.
  destruct (_combs self) as [| c cs] eqn:Hc.
  - rewrite (call_no_pairs self Hc). cbn [fst].
    now rewrite (call_no_pairs self Hc).
  - destruct (_bfs self) as [| p ps] eqn:Hb.
    + rewrite (call_no_poses self) by congruence. cbn [fst].
      rewrite call_no_poses; cbn [_combs _bfs]; try congruence.
      cbn [fst bt]. unfold solved_ft. cbn [_combs]. reflexivity.
    + rewrite (call_returns self) by congruence. cbn [fst].
      rewrite call_returns; cbn [_combs _bfs]; try congruence.
      cbn [fst]. unfold averaged_bt, solved_ft. cbn [_combs _bfs].
      reflexivity.
Qed.

(** X11: on an instance built from a pose sequence, the first call decides
    the state: however many calls follow, the instance, its [ft] and [bt]
    included, stays as the first call left it. *)
Theorem later_calls_change_nothing (poses : list Transform) (k : nat) :
  calls (S k) (__init__ poses) = fst (calibrate poses).
Proof.
  induction k as [| k IH]; [ reflexivity | ].
  change (calls (S (S k)) (__init__ poses))
    with (fst (__call__ (calls (S k) (__init__ poses)))).
  rewrite IH. unfold calibrate. apply call_idempotent.
Qed.

